(** * ParticleSystem: batch storage, spawner, update engine and tick driver

    A shallow embedding of [src/main.cpp].

    - [sf::Vector2<T>] is a template, and the program below is likewise
      written once over a scalar interface [Scalar T].  Two instances are
      given: [Binary32] (IEEE 754 single precision, the [float] the program
      runs on, through the Standard Library's [SpecFloat]) and [Exact]
      (canonical rationals: the same expressions without rounding, which
      the program does not compute).
    - [int] values are modelled as [Z]; the populations and indices the
      program manipulates stay far below the 32-bit range.
    - A [std::array<_, MAX_BATCH_VERTS>] is a list of [MAX_BATCH_VERTS]
      elements, read with [!!!] and written with [<[ _ := _ ]>]; the
      well-formedness predicate [batch_wf] records the lengths, and under it
      every index the program uses is in range.
    - The worker threads of [updateSystem] are modelled by an explicit
      schedule: a list of thread ids, each occurrence letting that thread
      compute its range, run one turn of the outer loop of [update] or,
      once its loop is over, signal completion.  No two workers share a
      batch, so a finer interleaving of the inner loops changes nothing
      in the world.  It does change [particleCounter]: the counter is a
      plain [int] that every worker decrements without synchronisation,
      and with two workers or more decrements can be lost.  The model
      counts the decrements issued and lets a pass with two workers or
      more lose any number of them (the argument [lost] of
      [updateSystem]); only with a single worker is the counter exact.
    - [main] declares [world env;] and never assigns [env.bounds]: the
      bounds of the world it runs are those of [sf::FloatRect()], all
      zero ([default_rect]).  [update] and [spawnParticle] take any
      world, and the concrete worlds used below say which bounds they
      have. *)

From Stdlib Require Import ZArith Lia Floats.SpecFloat QArith Qcanon Field.
From stdpp Require Import base tactics option list numbers.

Local Open Scope Z_scope.

(** ** Constants *)

Definition MAX_BATCH_VERTS : Z := 1000.
Definition MAX_PART_VEL : Z := 30.
Definition PART_PER_CLICK : Z := 100.

(** ** The scalar interface

    What the program needs of [float]: the value-initialised scalar, the
    literal [0.5f], the value of [dt.asSeconds()], the four operations and
    the two comparisons used by [sf::Rect<T>::contains]. *)

Class Scalar (T : Type) := {
  zero : T;
  half : T;
  dt_seconds : T;
  add : T -> T -> T;
  sub : T -> T -> T;
  mul : T -> T -> T;
  div : T -> T -> T;
  ltb : T -> T -> bool;
  leb : T -> T -> bool
}.

(** ** Data model *)

(** [sf::Vector2<T>] *)
Record Vector2 (T : Type) := mkVector2 { vx : T; vy : T }.
Arguments mkVector2 {T} _ _.
Arguments vx {T} _.
Arguments vy {T} _.

(** [sf::Color]: the two colours the program meets, the default of
    [sf::Vertex] and the one [spawnParticle] paints with. *)
Inductive Color := White | Yellow.

(** [sf::Vertex] *)
Record Vertex (T : Type) := mkVertex {
  position : Vector2 T;
  color : Color;
  texCoords : Vector2 T
}.
Arguments mkVertex {T} _ _ _.
Arguments position {T} _.
Arguments color {T} _.
Arguments texCoords {T} _.

(** [sf::Rect<T>] *)
Record Rect (T : Type) := mkRect {
  left : T; top : T; width : T; height : T
}.
Arguments mkRect {T} _ _ _ _.
Arguments left {T} _.
Arguments top {T} _.
Arguments width {T} _.
Arguments height {T} _.

(** [struct batch] *)
Record batch (T : Type) := mkBatch {
  vertices : list (Vertex T);
  oldPositions : list (Vector2 T);
  velocities : list (Vector2 T);
  acceleration : list (Vector2 T);
  population : Z
}.
Arguments mkBatch {T} _ _ _ _ _.
Arguments vertices {T} _.
Arguments oldPositions {T} _.
Arguments velocities {T} _.
Arguments acceleration {T} _.
Arguments population {T} _.

(** [struct gField] *)
Record gField (T : Type) := mkField {
  origin : Vector2 T;
  intensity : T
}.
Arguments mkField {T} _ _.
Arguments origin {T} _.
Arguments intensity {T} _.

(** [struct world] *)
Record world (T : Type) := mkWorld {
  bounds : Rect T;
  particles : list (batch T);
  gravFields : list (gField T)
}.
Arguments mkWorld {T} _ _ _.
Arguments bounds {T} _.
Arguments particles {T} _.
Arguments gravFields {T} _.

(** The program state: the world owned by [main] together with the global
    [particleCounter]. *)
Record sys (T : Type) := mkSys {
  env : world T;
  particleCounter : Z
}.
Arguments mkSys {T} _ _.
Arguments env {T} _.
Arguments particleCounter {T} _.

(** ** The program *)

Section Program.
Context {T : Type} {ST : Scalar T}.

(** *** Vector arithmetic ([SFML/System/Vector2.inl]) *)

Definition vzero : Vector2 T := mkVector2 zero zero.

Definition vadd (a b : Vector2 T) : Vector2 T :=
  mkVector2 (add (vx a) (vx b)) (add (vy a) (vy b)).

Definition vsub (a b : Vector2 T) : Vector2 T :=
  mkVector2 (sub (vx a) (vx b)) (sub (vy a) (vy b)).

(** [operator*(Vector2<T>, T)] *)
Definition vmul (a : Vector2 T) (s : T) : Vector2 T :=
  mkVector2 (mul (vx a) s) (mul (vy a) s).

(** [operator*(T, Vector2<T>)] *)
Definition smul (s : T) (a : Vector2 T) : Vector2 T :=
  mkVector2 (mul (vx a) s) (mul (vy a) s).

(** [operator/(Vector2<T>, T)] *)
Definition vdiv (a : Vector2 T) (s : T) : Vector2 T :=
  mkVector2 (div (vx a) s) (div (vy a) s).

#[export] Instance Vector2_inhabited : Inhabited (Vector2 T) := populate vzero.

(** [sf::Vertex()] *)
Definition default_vertex : Vertex T := mkVertex vzero White vzero.

#[export] Instance Vertex_inhabited : Inhabited (Vertex T) :=
  populate default_vertex.

Definition set_position (v : Vertex T) (p : Vector2 T) : Vertex T :=
  mkVertex p (color v) (texCoords v).

(** [std::min] and [std::max] *)
Definition smin (a b : T) : T := if ltb b a then b else a.
Definition smax (a b : T) : T := if ltb a b then b else a.

(** [sf::Rect<T>::contains] ([SFML/Graphics/Rect.inl]) *)
Definition contains (r : Rect T) (p : Vector2 T) : bool :=
  let minX := smin (left r) (add (left r) (width r)) in
  let maxX := smax (left r) (add (left r) (width r)) in
  let minY := smin (top r) (add (top r) (height r)) in
  let maxY := smax (top r) (add (top r) (height r)) in
  leb minX (vx p) && ltb (vx p) maxX && leb minY (vy p) && ltb (vy p) maxY.

(** [sf::Rect<T>()]: the rectangle of a [world] whose [bounds] nobody
    assigned. *)
Definition default_rect : Rect T := mkRect zero zero zero zero.

(** *** Batches *)

Definition K : nat := Z.to_nat MAX_BATCH_VERTS.
Arguments K : simpl never.

(** [batch::batch()]: the arrays are default-constructed element by
    element, the population is 0. *)
Definition new_batch : batch T :=
  mkBatch (replicate K default_vertex) (replicate K vzero)
          (replicate K vzero) (replicate K vzero) 0.

#[export] Instance batch_inhabited : Inhabited (batch T) := populate new_batch.

Definition idx (i : Z) : nat := Z.to_nat i.

(** *** spawnParticle *)

(** [batches.back().population] *)
Definition back_population (batches : list (batch T)) : Z :=
  population (batches !!! pred (length batches)).

(** The four assignments to [batches.back()] at slot [N]. *)
Definition write_slot (N : Z) (pos vel : Vector2 T) (b : batch T) : batch T :=
  mkBatch (<[idx N := mkVertex pos Yellow vzero]> (vertices b))
          (<[idx N := pos]> (oldPositions b))
          (<[idx N := vel]> (velocities b))
          (acceleration b)
          (population b + 1).

Definition spawnParticle (pos vel : Vector2 T)
    (st : list (batch T) * Z) : list (batch T) * Z :=
  let '(batches, counter) := st in
  let batches1 := if decide (batches = []) then batches ++ [new_batch]
                  else batches in
  let N := back_population batches1 in
  let '(batches2, N') :=
    if MAX_BATCH_VERTS <=? N then (batches1 ++ [new_batch], 0)
    else (batches1, N) in
  (alter (write_slot N' pos vel) (pred (length batches2)) batches2,
   counter + 1).

(** What [spawnParticle] does to the list of the populations: it depends
    on no other part of the state. *)
Definition spawn_populations (ps : list Z) : list Z :=
  let ps1 := if decide (ps = []) then ps ++ [0] else ps in
  let N := ps1 !!! pred (length ps1) in
  let ps2 := if MAX_BATCH_VERTS <=? N then ps1 ++ [0] else ps1 in
  alter (λ n, n + 1) (pred (length ps2)) ps2.

(** [spawnParticle] called once for each pair of a list, in order. *)
Definition spawn_all (pvs : list (Vector2 T * Vector2 T))
    (st : list (batch T) * Z) : list (batch T) * Z :=
  foldl (λ st pv, spawnParticle (fst pv) (snd pv) st) st pvs.

(** *** update: the body for one particle *)

(** One turn of the loop over [env.gravFields]. *)
Definition gForce (p : Vector2 T) (total : Vector2 T) (g : gField T)
    : Vector2 T :=
  let r := vsub (origin g) p in
  let r2 := add (mul (vx r) (vx r)) (mul (vy r) (vy r)) in
  vadd total (vmul (vdiv r r2) (intensity g)).

Definition totalGForce (gs : list (gField T)) (p : Vector2 T) : Vector2 T :=
  foldl (gForce p) vzero gs.

(** The integrated position, velocity and acceleration of a particle. *)
Definition new_position (p v a : Vector2 T) : Vector2 T :=
  vadd p (vadd (vmul v dt_seconds) (vmul (vmul a dt_seconds) dt_seconds)).

Definition new_velocity (v a f : Vector2 T) : Vector2 T :=
  vadd v (vmul (smul half (vadd a f)) dt_seconds).

(** The [if] branch of the loop body. *)
Definition integrate (gs : list (gField T)) (i : Z) (b : batch T) : batch T :=
  let p := new_position (position (vertices b !!! idx i))
                        (velocities b !!! idx i) (acceleration b !!! idx i) in
  let f := totalGForce gs p in
  mkBatch (<[idx i := set_position (vertices b !!! idx i) p]> (vertices b))
          (oldPositions b)
          (<[idx i := new_velocity (velocities b !!! idx i)
                                   (acceleration b !!! idx i) f]>
             (velocities b))
          (<[idx i := f]> (acceleration b))
          (population b).

(** The loop [for (m = i; m < population; m++)], [n] turns left. *)
Fixpoint shift (n : nat) (m : Z) (b : batch T) : batch T :=
  match n with
  | O => b
  | S n' =>
      shift n' (m + 1)
        (mkBatch (<[idx m := vertices b !!! idx (m + 1)]> (vertices b))
                 (oldPositions b)
                 (<[idx m := velocities b !!! idx (m + 1)]> (velocities b))
                 (acceleration b)
                 (population b))
  end.

(** The [else] branch of the loop body. *)
Definition remove (i : Z) (st : batch T * Z) : batch T * Z :=
  let '(b, counter) := st in
  let b1 := mkBatch (vertices b) (oldPositions b) (velocities b)
                    (acceleration b) (population b - 1) in
  (shift (Z.to_nat (population b1 - i)) i b1, counter - 1).

(** The body of the loop over [i], on batch [j] and [particleCounter]. *)
Definition update_particle (bnd : Rect T) (gs : list (gField T)) (i : Z)
    (st : batch T * Z) : batch T * Z :=
  if contains bnd (position (vertices (fst st) !!! idx i))
  then (integrate gs i (fst st), snd st)
  else remove i st.

(** The loop [for (i = population - 1; i >= 0; i--)], [n] turns left. *)
Fixpoint scan (bnd : Rect T) (gs : list (gField T)) (n : nat)
    (st : batch T * Z) : batch T * Z :=
  match n with
  | O => st
  | S n' => scan bnd gs n' (update_particle bnd gs (Z.of_nat n') st)
  end.

Definition update_batch (bnd : Rect T) (gs : list (gField T))
    (st : batch T * Z) : batch T * Z :=
  scan bnd gs (Z.to_nat (population (fst st))) st.

(** One turn of the loop over [j]: the inner loop run on
    [env.particles[j]]. *)
Definition update_at (j : Z) (s : sys T) : sys T :=
  match particles (env s) !! idx j with
  | Some b =>
      let '(b', c') :=
        update_batch (bounds (env s)) (gravFields (env s))
                     (b, particleCounter s) in
      mkSys (mkWorld (bounds (env s)) (<[idx j := b']> (particles (env s)))
                     (gravFields (env s))) c'
  | None => s
  end.

End Program.

(** ** update and updateSystem *)

(** How a call of a function of the program can end. [Undefined] is
    undefined behaviour (here: an integer division by zero); [Waiting] is a
    caller still blocked on the condition variable. *)
Inductive outcome (A : Type) :=
  | Returned (a : A)
  | Waiting
  | Undefined.
Arguments Returned {A} _.
Arguments Waiting {A}.
Arguments Undefined {A}.

(** A worker thread running [update(env, id)]: created and not yet
    scheduled, inside the loop over [j] with its locals [j] and [END], or
    past [threadSignals++]. *)
Inductive worker :=
  | Spawned
  | Looping (j END : Z)
  | Signalled.

#[export] Instance worker_eq_dec : EqDecision worker.
Proof. solve_decision. Defined.

(** What [updateSystem] and its workers share: the program state and the
    global [threadSignals]. *)
Record pool (T : Type) := mkPool {
  workers : list worker;
  shared : sys T;
  threadSignals : Z
}.
Arguments mkPool {T} _ _ _.
Arguments workers {T} _.
Arguments shared {T} _.
Arguments threadSignals {T} _.

Section Engine.
Context {T : Type} {ST : Scalar T}.

(** The first four lines of [update]: [START] and [END] of worker [id]
    over [size] batches. *)
Definition partition (MAX_THREADS size id : Z) : option (Z * Z) :=
  if MAX_THREADS =? 0 then None
  else
    let STEP := size / MAX_THREADS in
    let START := STEP * id in
    let END := if id =? MAX_THREADS - 1 then size else STEP * (id + 1) in
    Some (START, END).

Definition batch_count (s : sys T) : Z :=
  Z.of_nat (length (particles (env s))).

(** The loop [for (j = START; j < END; j++)], [n] turns left. *)
Fixpoint loop_j (n : nat) (j : Z) (s : sys T) : sys T :=
  match n with
  | O => s
  | S n' => loop_j n' (j + 1) (update_at j s)
  end.

(** [update(env, id)] run from its first line to its last, on the program
    state and [threadSignals]. *)
Definition update (MAX_THREADS : Z) (id : Z) (st : sys T * Z)
    : outcome (sys T * Z) :=
  match partition MAX_THREADS (batch_count (fst st)) id with
  | None => Undefined
  | Some (START, END) =>
      Returned (loop_j (Z.to_nat (END - START)) START (fst st), snd st + 1)
  end.

(** The single-threaded reference: one pass over all batches in index
    order. *)
Definition sequential_pass (s : sys T) : sys T :=
  loop_j (length (particles (env s))) 0 s.

(** One scheduling slot given to a worker: it computes its range, or runs
    one turn of its loop over [j], or leaves the loop and signals.  The
    counter of the shared state counts the decrements issued so far; what
    the unsynchronised global holds at the end of the pass is settled in
    [updateSystem]. *)
Definition worker_step (MAX_THREADS id : Z) (w : worker) (s : sys T)
    (signals : Z) : option (worker * sys T * Z) :=
  match w with
  | Spawned =>
      match partition MAX_THREADS (batch_count s) id with
      | None => None
      | Some (START, END) => Some (Looping START END, s, signals)
      end
  | Looping j END =>
      if j <? END then Some (Looping (j + 1) END, update_at j s, signals)
      else Some (Signalled, s, signals + 1)
  | Signalled => Some (Signalled, s, signals)
  end.

Definition pool_step (MAX_THREADS : Z) (p : pool T) (id : nat)
    : option (pool T) :=
  match workers p !! id with
  | None => Some p
  | Some w =>
      match worker_step MAX_THREADS (Z.of_nat id) w (shared p)
                        (threadSignals p) with
      | None => None
      | Some (w', s', n') => Some (mkPool (<[id := w']> (workers p)) s' n')
      end
  end.

Fixpoint run_pool (MAX_THREADS : Z) (sched : list nat) (p : pool T)
    : option (pool T) :=
  match sched with
  | [] => Some p
  | id :: sched' =>
      match pool_step MAX_THREADS p id with
      | None => None
      | Some p' => run_pool MAX_THREADS sched' p'
      end
  end.

(** [particleCounter--] is a load, a subtraction and a store on a plain
    [int].  A single worker runs them one after the other.  Two workers or
    more run them unsynchronised, and a store can overwrite the decrements
    of the other workers: [lost] is the number of decrements the pass
    loses, which like the schedule is not in the hands of the program. *)
Definition raced (thNum lost : Z) (s : sys T) : sys T :=
  if thNum <=? 1 then s
  else mkSys (env s) (particleCounter s + lost).

(** [updateSystem(env)] with [hardware_concurrency() = thNum], its workers
    scheduled as [sched] says and [lost] decrements of [particleCounter]
    lost to the race.  The wait on the condition variable lets the caller
    through when [threadSignals == thNum]. *)
Definition updateSystem (thNum : Z) (sched : list nat) (lost : Z)
    (s : sys T) : outcome (sys T) :=
  match run_pool thNum sched
          (mkPool (replicate (Z.to_nat thNum) Spawned) s 0) with
  | None => Undefined
  | Some p =>
      if threadSignals p =? thNum then Returned (raced thNum lost (shared p))
      else Waiting
  end.

(** A schedule that gives every worker as many slots as it can use. *)
Definition fair (thNum : Z) (size : Z) (sched : list nat) : Prop :=
  ∀ id : nat, (Z.of_nat id < thNum) →
    (size + 2 <= Z.of_nat (length (filter (λ x, x = id) sched))).

(** The round-robin schedule. *)
Definition round_robin (thNum : Z) (size : Z) : list nat :=
  mjoin (replicate (Z.to_nat (size + 2)) (seq 0 (Z.to_nat thNum))).

(** *** spawn and pass on the program state *)

Definition spawn (pos vel : Vector2 T) (s : sys T) : sys T :=
  let '(batches, counter) :=
    spawnParticle pos vel (particles (env s), particleCounter s) in
  mkSys (mkWorld (bounds (env s)) batches (gravFields (env s))) counter.

(** What [main] does to the state between two frames. *)
Inductive op :=
  | Spawn (pos vel : Vector2 T)
  | Pass (thNum : Z) (sched : list nat) (lost : Z).

Definition apply_op (o : op) (s : sys T) : outcome (sys T) :=
  match o with
  | Spawn pos vel => Returned (spawn pos vel s)
  | Pass thNum sched lost => updateSystem thNum sched lost s
  end.

(** The calls of [spawnParticle] among the operations. *)
Fixpoint spawn_count (ops : list op) : Z :=
  match ops with
  | [] => 0
  | Spawn _ _ :: ops' => 1 + spawn_count ops'
  | Pass _ _ _ :: ops' => spawn_count ops'
  end.

(** Passes whose decrements of [particleCounter] do not race. *)
Definition unraced (o : op) : Prop :=
  match o with
  | Spawn _ _ => True
  | Pass thNum _ _ => thNum <= 1
  end.

Fixpoint run_ops (ops : list op) (s : sys T) : outcome (sys T) :=
  match ops with
  | [] => Returned s
  | o :: ops' =>
      match apply_op o s with
      | Returned s' => run_ops ops' s'
      | Waiting => Waiting
      | Undefined => Undefined
      end
  end.

Definition empty_sys (bnd : Rect T) (gs : list (gField T)) : sys T :=
  mkSys (mkWorld bnd [] gs) 0.

(** *** Well-formedness *)

Definition batch_wf (b : batch T) : Prop :=
  length (vertices b) = K ∧ length (oldPositions b) = K ∧
  length (velocities b) = K ∧ length (acceleration b) = K ∧
  0 <= population b <= MAX_BATCH_VERTS.

Definition total_population (bs : list (batch T)) : Z :=
  foldr (λ b n, population b + n) 0 bs.

(** What one pass makes of a batch, and of the whole state. *)
Definition updated (bnd : Rect T) (gs : list (gField T)) (b : batch T)
    : batch T :=
  fst (update_batch bnd gs (b, 0)).

Definition all_updated (s : sys T) : sys T :=
  let bs := map (updated (bounds (env s)) (gravFields (env s)))
                (particles (env s)) in
  mkSys (mkWorld (bounds (env s)) bs (gravFields (env s)))
        (particleCounter s - total_population (particles (env s))
         + total_population bs).

(** The live particles of a batch, as rows of the parallel columns. *)
Definition live_vertices (b : batch T) : list (Vertex T) :=
  take (idx (population b)) (vertices b).
Definition live_velocities (b : batch T) : list (Vector2 T) :=
  take (idx (population b)) (velocities b).
Definition live_acceleration (b : batch T) : list (Vector2 T) :=
  take (idx (population b)) (acceleration b).

Definition row : Type := Vertex T * Vector2 T * Vector2 T.

Definition row_vertex (r : row) : Vertex T := fst (fst r).
Definition row_velocity (r : row) : Vector2 T := snd (fst r).
Definition row_acceleration (r : row) : Vector2 T := snd r.

Definition row_at (b : batch T) (k : nat) : row :=
  (vertices b !!! k, velocities b !!! k, acceleration b !!! k).

Definition rows (n : nat) (b : batch T) : list row :=
  map (row_at b) (seq 0 n).

Definition live_rows (b : batch T) : list row :=
  rows (idx (population b)) b.

(** Every live slot holds a particle written by [spawnParticle]. *)
Definition live_spawned (b : batch T) : Prop :=
  Forall (λ v, color v = Yellow) (live_vertices b).

(** The invariant of the program state: every batch is well formed, its
    live slots [0 .. population) all hold spawned particles, and the global
    counter is the number of live slots. *)
Definition sys_wf (s : sys T) : Prop :=
  Forall (λ b, batch_wf b ∧ live_spawned b) (particles (env s)) ∧
  particleCounter s = total_population (particles (env s)).

(** The part of the invariant that is about the world alone. *)
Definition world_wf (w : world T) : Prop :=
  Forall (λ b, batch_wf b ∧ live_spawned b) (particles w).

(** The live particles of a batch as the pass sees them, in slot order:
    vertex and velocity. *)
Definition live_particles (b : batch T) : list (Vertex T * Vector2 T) :=
  zip (live_vertices b) (live_velocities b).

Definition in_bounds (bnd : Rect T) (r : row) : bool :=
  contains bnd (position (fst (fst r))).

(** What the [if] branch makes of a row. *)
Definition integrate_row (gs : list (gField T)) (r : row) : row :=
  let '(v, vel, acc) := r in
  let p := new_position (position v) vel acc in
  let f := totalGForce gs p in
  (set_position v p, new_velocity vel acc f, f).

(** *** The state of a pass in progress *)

(** [agree D s0 s]: [s] is [s0] with exactly the batches whose index is in
    [D] updated, and the counter decremented accordingly. *)
Definition agree (D : nat → Prop) (s0 s : sys T) : Prop :=
  bounds (env s) = bounds (env s0) ∧
  gravFields (env s) = gravFields (env s0) ∧
  length (particles (env s)) = length (particles (env s0)) ∧
  (∀ j b, particles (env s0) !! j = Some b →
     (D j → particles (env s) !! j =
              Some (updated (bounds (env s0)) (gravFields (env s0)) b)) ∧
     (¬ D j → particles (env s) !! j = Some b)) ∧
  particleCounter s - total_population (particles (env s)) =
    particleCounter s0 - total_population (particles (env s0)).

(** The range of worker [id], and how far the worker has come in it. *)
Definition range (MAX_THREADS size : Z) (id : nat) : Z * Z :=
  default (0, 0) (partition MAX_THREADS size (Z.of_nat id)).

Definition progress (MAX_THREADS size : Z) (id : nat) (w : worker) : Z :=
  match w with
  | Spawned => fst (range MAX_THREADS size id)
  | Looping j _ => j
  | Signalled => snd (range MAX_THREADS size id)
  end.

Definition processed (MAX_THREADS size : Z) (ws : list worker) (j : nat)
    : Prop :=
  ∃ id w, ws !! id = Some w ∧
    fst (range MAX_THREADS size id) <= Z.of_nat j
      < progress MAX_THREADS size id w.

(** The scheduling slots a worker can still use. *)
Definition need (size : Z) (w : worker) : Z :=
  match w with
  | Spawned => size + 2
  | Looping j END => END - j + 1
  | Signalled => 0
  end.

Definition pool_inv (MAX_THREADS : Z) (s0 : sys T) (p : pool T) : Prop :=
  length (workers p) = Z.to_nat MAX_THREADS ∧
  (∀ id j END, workers p !! id = Some (Looping j END) →
     END = snd (range MAX_THREADS (batch_count s0) id) ∧
     fst (range MAX_THREADS (batch_count s0) id) <= j <= END) ∧
  agree (processed MAX_THREADS (batch_count s0) (workers p)) s0 (shared p) ∧
  threadSignals p =
    Z.of_nat (length (filter (λ w, w = Signalled) (workers p))).

(** *** The rest of a frame of [main] *)

(** The loop over the batches that ends a frame: each batch hands its first
    [population] vertices to [window.draw]. *)
Definition drawn (s : sys T) : list (Vertex T) :=
  mjoin (live_vertices <$> particles (env s)).

(** The body of [if (sf::Mouse::isButtonPressed(...))]: one call of
    [spawnParticle] at the mouse position for each velocity of the loop (the
    velocities come from the random engine, [PART_PER_CLICK] of them). *)
Definition click (pos : Vector2 T) (vels : list (Vector2 T)) (s : sys T)
    : sys T :=
  foldl (λ s vel, spawn pos vel s) s vels.

(** [update(env, id)], [update(env, id + 1)], ... called one after the
    other, [n] calls in all. *)
Fixpoint update_in_turn (MAX_THREADS : Z) (n : nat) (id : Z)
    (st : sys T * Z) : outcome (sys T * Z) :=
  match n with
  | O => Returned st
  | S n' =>
      match update MAX_THREADS id st with
      | Returned st' => update_in_turn MAX_THREADS n' (id + 1) st'
      | Waiting => Waiting
      | Undefined => Undefined
      end
  end.

End Engine.

(** ** The tick driver

    The loop [while (time >= dt) { updateSystem(env); time -= dt; }] of
    [main], over any pass function; [sf::Time] counts microseconds in a
    64-bit integer. *)

Section Tick.
Context {St : Type} (pass : St -> St) (dt : Z).

Fixpoint tick_loop (fuel : nat) (time : Z) (s : St) : option (Z * St) :=
  match fuel with
  | O => None
  | S fuel' =>
      if dt <=? time then tick_loop fuel' (time - dt) (pass s)
      else Some (time, s)
  end.

(** One frame: [time += clock.restart()], then the loop. *)
Definition frame (fuel : nat) (elapsed : Z) (st : Z * St)
    : option (Z * St) :=
  tick_loop fuel (fst st + elapsed) (snd st).

(** The time part of several frames in a row, one elapsed time each. *)
Fixpoint frames (fuel : nat) (elapsed : list Z) (st : Z * St)
    : option (Z * St) :=
  match elapsed with
  | [] => Some st
  | e :: elapsed' =>
      match frame fuel e st with
      | None => None
      | Some st' => frames fuel elapsed' st'
      end
  end.

End Tick.

(** ** The arithmetic the program runs on: IEEE 754 binary32 *)

Module Binary32.

Definition prec : Z := 24.
Definition emax : Z := 128.

Definition float : Type := spec_float.

(** The [float] nearest to the integer [z]. *)
Definition of_Z (z : Z) : float := binary_normalize prec emax z 0 false.

(** [static_cast<Int64>]: truncation towards zero. *)
Definition to_Z (x : float) : Z :=
  match x with
  | S754_finite s m e =>
      let a := if (0 <=? e) then Z.pos m * 2 ^ e
               else Z.pos m / 2 ^ (- e) in
      if s then - a else a
  | _ => 0
  end.

(** [sf::seconds(1.f / 60.f)] keeps
    [static_cast<Int64>(amount * 1000000)] microseconds. *)
Definition dt : Z :=
  to_Z (SFmul prec emax (SFdiv prec emax (of_Z 1) (of_Z 60)) (of_Z 1000000)).

(** [sf::Time::asSeconds] is [m_microseconds / 1000000.f]. *)
Definition dt_asSeconds : float :=
  SFdiv prec emax (of_Z dt) (of_Z 1000000).

#[export] Instance scalar : Scalar float := {|
  zero := S754_zero false;
  half := SFdiv prec emax (of_Z 1) (of_Z 2);
  dt_seconds := dt_asSeconds;
  add := SFadd prec emax;
  sub := SFsub prec emax;
  mul := SFmul prec emax;
  div := SFdiv prec emax;
  ltb := SFltb;
  leb := SFleb
|}.

Definition vec (x y : Z) : Vector2 float := mkVector2 (of_Z x) (of_Z y).

Definition is_nan (x : float) : bool :=
  match x with S754_nan => true | _ => false end.

(** [W_DIM] *)
Definition W_DIM : Rect float := mkRect (of_Z 0) (of_Z 0) (of_Z 800) (of_Z 600).

(** The field [main] places in the middle of the window. *)
Definition main_field : gField float := mkField (vec 400 300) (of_Z 500).

(** The state of [main] before the first click: [env.bounds] is never
    assigned and keeps the value of [sf::FloatRect()]. *)
Definition main_initial : sys float := empty_sys default_rect [main_field].

(** The empty world with the window rectangle [W_DIM] for bounds and the
    field of [main].  This is not a state of [main], whose bounds are
    [default_rect]; it is the world of the design document, built here to
    call [spawnParticle], [update] and [updateSystem] on. *)
Definition initial : sys float := empty_sys W_DIM [main_field].

Definition first_batch (s : sys float) : batch float :=
  particles (env s) !!! 0%nat.

(** In the world [initial], of bounds [W_DIM]: one particle near the right
    edge, moving right; one pass takes it across the edge. *)
Definition leaving : sys float := spawn (vec 799 300) (vec 120 0) initial.

(** In the world [initial], of bounds [W_DIM]: a particle spawned left of
    the bounds, then one inside them. *)
Definition two_particles : sys float :=
  spawn (vec 100 300) (vec 0 0) (spawn (vec (-5) 300) (vec 0 0) initial).

(** In the world [initial], of bounds [W_DIM]: a particle at rest on the
    origin of the field. *)
Definition at_origin : sys float := spawn (vec 400 300) (vec 0 0) initial.

(** Two workers, one batch: every worker gets its three slots. *)
Definition two_workers : list nat := round_robin 2 1.

End Binary32.

(** ** Exact arithmetic: the rationals

    The program never runs on this arithmetic.  It is here to say what an
    expression of the program would be worth without rounding, next to
    what it is worth on binary32.  A division by zero has no meaning here
    ([Qcdiv] gives 0): the instance is used only where the divisors are
    not zero. *)

Module Exact.

Definition Qc_ltb (x y : Qc) : bool :=
  match (x ?= y)%Qc with Lt => true | _ => false end.

Definition Qc_leb (x y : Qc) : bool :=
  match (x ?= y)%Qc with Gt => false | _ => true end.

#[export] Instance scalar : Scalar Qc := {|
  zero := 0%Qc;
  half := Q2Qc (1 # 2);
  dt_seconds := Q2Qc (16666 # 1000000);
  add := Qcplus;
  sub := Qcminus;
  mul := Qcmult;
  div := Qcdiv;
  ltb := Qc_ltb;
  leb := Qc_leb
|}.

Definition W_DIM : Rect Qc :=
  mkRect 0%Qc 0%Qc (Q2Qc (inject_Z 800)) (Q2Qc (inject_Z 600)).

End Exact.

#[global] Existing Instance Binary32.scalar.
#[global] Existing Instance Exact.scalar.

(** * Properties *)

(** ** Batches *)

Section BatchFacts.
Context {T : Type} {ST : Scalar T}.
Implicit Types (b : batch T) (c : Z) (n k : nat).

Lemma idx_of_nat n : idx (Z.of_nat n) = n.
Proof. unfold idx. lia. Qed.

Lemma idx_succ (m : Z) : 0 <= m → idx (m + 1) = S (idx m).
Proof. unfold idx. lia. Qed.

(** *** The compaction loop *)

Lemma shift_population n m b : population (shift n m b) = population b.
Proof. revert m b. induction n as [|n IH]; intros m b; simpl; [done|]. by rewrite IH. Qed.

Lemma shift_acceleration n m b : acceleration (shift n m b) = acceleration b.
Proof. revert m b. induction n as [|n IH]; intros m b; simpl; [done|]. by rewrite IH. Qed.

Lemma shift_oldPositions n m b : oldPositions (shift n m b) = oldPositions b.
Proof. revert m b. induction n as [|n IH]; intros m b; simpl; [done|]. by rewrite IH. Qed.

(** One column after [n] turns of the loop started at slot [k]. *)
Lemma shifted_column {A} `{!Inhabited A} (l : list A) k n :
  (k + S n < length l)%nat →
  take (S k) (<[k := l !!! S k]> l) ++
    take n (drop (S (S k)) (<[k := l !!! S k]> l)) ++
    drop (S k + n) (<[k := l !!! S k]> l)
  = take k l ++ take (S n) (drop (S k) l) ++ drop (k + S n) l.
Proof.
  intros Hlen.
  assert (Hx : l !! S k = Some (l !!! S k)).
  { apply list_lookup_lookup_total_lt. lia. }
  rewrite (take_S_r _ k (l !!! S k)).
  2:{ apply list_lookup_insert_eq. lia. }
  rewrite take_insert_ge by lia.
  rewrite !drop_insert_lt by lia.
  rewrite (drop_S l (l !!! S k) (S k)) by done.
  rewrite <- app_assoc. simpl.
  by replace (k + S n)%nat with (S (k + n)) by lia.
Qed.

Lemma shift_vertices n : ∀ m b,
  0 <= m → (idx m + n < length (vertices b))%nat →
  vertices (shift n m b) =
    take (idx m) (vertices b) ++ take n (drop (S (idx m)) (vertices b)) ++
    drop (idx m + n) (vertices b).
Proof.
  induction n as [|n IH]; intros m b Hm Hlen; simpl.
  - rewrite Nat.add_0_r. by rewrite take_drop.
  - rewrite IH; simpl; [|lia|rewrite length_insert, idx_succ by done; lia].
    rewrite !idx_succ by done. apply shifted_column. lia.
Qed.

Lemma shift_velocities n : ∀ m b,
  0 <= m → (idx m + n < length (velocities b))%nat →
  velocities (shift n m b) =
    take (idx m) (velocities b) ++ take n (drop (S (idx m)) (velocities b)) ++
    drop (idx m + n) (velocities b).
Proof.
  induction n as [|n IH]; intros m b Hm Hlen; simpl.
  - rewrite Nat.add_0_r. by rewrite take_drop.
  - rewrite IH; simpl; [|lia|rewrite length_insert, idx_succ by done; lia].
    rewrite !idx_succ by done. apply shifted_column. lia.
Qed.


(** *** Rows *)

Lemma rows_S n b : rows (S n) b = rows n b ++ [row_at b n].
Proof. unfold rows. by rewrite seq_S, map_app. Qed.

Lemma rows_ext n b1 b2 :
  (∀ k, (k < n)%nat → row_at b1 k = row_at b2 k) → rows n b1 = rows n b2.
Proof.
  intros H. unfold rows. apply map_ext_in. intros k Hk.
  apply in_seq in Hk. apply H. lia.
Qed.

Lemma length_rows n b : length (rows n b) = n.
Proof. unfold rows. by rewrite length_map, length_seq. Qed.

(** *** The two branches of the loop body *)

Lemma update_particle_in bnd gs n b c :
  in_bounds bnd (row_at b n) = true →
  update_particle bnd gs (Z.of_nat n) (b, c) = (integrate gs (Z.of_nat n) b, c).
Proof.
  unfold update_particle, in_bounds, row_at. simpl. rewrite idx_of_nat.
  by intros ->.
Qed.

Lemma update_particle_out bnd gs n b c :
  in_bounds bnd (row_at b n) = false →
  update_particle bnd gs (Z.of_nat n) (b, c) = remove (Z.of_nat n) (b, c).
Proof.
  unfold update_particle, in_bounds, row_at. simpl. rewrite idx_of_nat.
  by intros ->.
Qed.

Lemma row_at_integrate gs n b k :
  k ≠ n → row_at (integrate gs (Z.of_nat n) b) k = row_at b k.
Proof.
  intros Hk. unfold row_at, integrate. simpl. rewrite idx_of_nat.
  by rewrite !list_lookup_total_insert_ne by done.
Qed.

Lemma row_at_integrate_eq gs n b :
  (n < length (vertices b))%nat → (n < length (velocities b))%nat →
  (n < length (acceleration b))%nat →
  row_at (integrate gs (Z.of_nat n) b) n = integrate_row gs (row_at b n).
Proof.
  intros H1 H2 H3. unfold row_at, integrate, integrate_row. simpl.
  rewrite idx_of_nat. by rewrite !list_lookup_total_insert_eq by done.
Qed.


(** *** Columns under the two branches *)

Lemma drop_take_insert {A} (l : list A) n p x :
  (n < p)%nat → (p <= length l)%nat →
  drop n (take p (<[n := x]> l)) = x :: drop (S n) (take p l).
Proof.
  intros Hn Hp. rewrite take_insert_lt by done.
  rewrite (drop_S _ x n).
  2:{ apply list_lookup_insert_eq. rewrite length_take. lia. }
  by rewrite drop_insert_lt by lia.
Qed.

Lemma take_take_insert {A} (l : list A) n p x :
  (n <= p)%nat → take n (take p (<[n := x]> l)) = take n (take p l).
Proof.
  intros Hn. rewrite !take_take. by rewrite take_insert_ge by lia.
Qed.

(** A column closed at slot [n], of which [p] slots were live. *)
Lemma closed_column {A} (l : list A) n p :
  (n < p)%nat → (p <= length l)%nat →
  take (p - 1) (take n l ++ take (p - 1 - n) (drop (S n) l) ++ drop (n + (p - 1 - n)) l)
  = take n (take p l) ++ drop (S n) (take p l).
Proof.
  intros Hn Hp. rewrite app_assoc, take_app_length'.
  2:{ rewrite length_app, !length_take, length_drop. lia. }
  rewrite take_take. replace (n `min` p)%nat with n by lia.
  f_equal. rewrite take_drop_commute. f_equal. f_equal. lia.
Qed.

Lemma scan_spec bnd gs n : ∀ b c b' c',
  (n <= idx (population b))%nat → (idx (population b) <= K)%nat →
  length (vertices b) = K → length (velocities b) = K →
  length (acceleration b) = K →
  scan bnd gs n (b, c) = (b', c') →
  let S := filter (λ r, in_bounds bnd r = true) (rows n b) in
  population b' = population b - (Z.of_nat n - Z.of_nat (length S)) ∧
  c' = c - (Z.of_nat n - Z.of_nat (length S)) ∧
  live_vertices b' =
    map (λ r, row_vertex (integrate_row gs r)) S ++ drop n (live_vertices b) ∧
  live_velocities b' =
    map (λ r, row_velocity (integrate_row gs r)) S ++ drop n (live_velocities b) ∧
  length (vertices b') = K ∧ length (velocities b') = K ∧
  length (acceleration b') = K ∧ length (oldPositions b') = length (oldPositions b).
Proof.
  induction n as [|n IH]; intros b c b' c' Hn Hp Hv Hw Ha Hscan; cbv zeta;
    simpl in Hscan.
  - injection Hscan as <- <-. unfold rows. simpl.
    rewrite !drop_0. repeat split; try done; lia.
  - assert (HS : ∀ k, (k < n)%nat → k ≠ n) by lia.
    rewrite rows_S, list.filter_app.
    destruct (in_bounds bnd (row_at b n)) eqn:Hin.
    + rewrite update_particle_in in Hscan by done.
      apply IH in Hscan; simpl; rewrite ?length_insert; try done; try lia.
      destruct Hscan as (Hpop & Hc & Hlv & Hlw & ? & ? & ? & ?).
      rewrite (rows_ext n _ b) in Hpop, Hc, Hlv, Hlw
        by (intros; apply row_at_integrate; lia).
      rewrite filter_cons_True, filter_nil by done.
      rewrite length_app, !map_app, <- !app_assoc. simpl.
      unfold live_vertices, live_velocities in *. simpl in *.
      rewrite idx_of_nat in *.
      rewrite drop_take_insert in Hlv by lia. rewrite drop_take_insert in Hlw by lia.
      rewrite Hlv, Hlw.
      repeat split; try done; lia.
    + rewrite update_particle_out in Hscan by done.
      unfold remove in Hscan.
      set (b1 := mkBatch _ _ _ _ _) in Hscan.
      set (cnt := Z.to_nat _) in Hscan.
      assert (Hcnt : cnt = (idx (population b) - 1 - n)%nat).
      { unfold cnt, b1, idx. simpl. lia. }
      assert (Hpop1 : idx (population (shift cnt (Z.of_nat n) b1))
                      = (idx (population b) - 1)%nat).
      { rewrite shift_population. unfold b1, idx. simpl. lia. }
      assert (Hvs := shift_vertices cnt (Z.of_nat n) b1).
      assert (Hws := shift_velocities cnt (Z.of_nat n) b1).
      rewrite idx_of_nat in Hvs, Hws. simpl in Hvs, Hws.
      specialize (Hvs ltac:(lia) ltac:(lia)).
      specialize (Hws ltac:(lia) ltac:(lia)).
      apply IH in Hscan; rewrite ?Hpop1; try lia.
      2:{ rewrite Hvs, !length_app, !length_take, !length_drop. lia. }
      2:{ rewrite Hws, !length_app, !length_take, !length_drop. lia. }
      2:{ by rewrite shift_acceleration. }
      destruct Hscan as (Hpop & Hc & Hlv & Hlw & ? & ? & ? & Hold).
      rewrite shift_population in Hpop. rewrite shift_oldPositions in Hold.
      assert (Hrows : rows n (shift cnt (Z.of_nat n) b1) = rows n b).
      { apply rows_ext. intros k Hk. unfold row_at.
        rewrite shift_acceleration, Hvs, Hws. simpl.
        rewrite !lookup_total_app_l by (rewrite length_take; lia).
        by rewrite !lookup_total_take_lt by lia. }
      rewrite Hrows in Hpop, Hc, Hlv, Hlw.
      rewrite filter_cons_False, filter_nil, app_nil_r by (rewrite Hin; done).
      unfold live_vertices, live_velocities in *. rewrite Hpop1 in Hlv, Hlw.
      rewrite Hvs, Hcnt, closed_column in Hlv by lia.
      rewrite Hws, Hcnt, closed_column in Hlw by lia.
      rewrite drop_app_length' in Hlv by (rewrite !length_take; lia).
      rewrite drop_app_length' in Hlw by (rewrite !length_take; lia).
      simpl in *. repeat split; try done; lia.
Qed.


(** *** One batch, one pass *)

Lemma complement_length {A} (P : A → bool) (l : list A) :
  (length (filter (λ x, P x = true) l) + length (filter (λ x, P x = false) l)
   = length l)%nat.
Proof.
  induction l as [|x l IH]; [done|].
  rewrite !filter_cons.
  destruct (P x); repeat case_decide; try done; simpl; lia.
Qed.

Lemma update_batch_spec bnd gs b c b' c' :
  batch_wf b →
  update_batch bnd gs (b, c) = (b', c') →
  population b' =
    Z.of_nat (length (filter (λ r, in_bounds bnd r = true) (live_rows b))) ∧
  c' = c - (population b - population b') ∧
  live_vertices b' =
    map (λ r, row_vertex (integrate_row gs r))
        (filter (λ r, in_bounds bnd r = true) (live_rows b)) ∧
  live_velocities b' =
    map (λ r, row_velocity (integrate_row gs r))
        (filter (λ r, in_bounds bnd r = true) (live_rows b)) ∧
  batch_wf b'.
Proof.
  intros (Hv & Ho & Hw & Ha & Hp) Hup. unfold update_batch in Hup.
  simpl in Hup. fold (idx (population b)) in Hup.
  apply scan_spec in Hup; try done; [|unfold idx, K, MAX_BATCH_VERTS in *; lia].
  fold (live_rows b) in Hup.
  destruct Hup as (Hpop & Hc & Hlv & Hlw & ? & ? & ? & ?).
  assert (Hle := length_filter (λ r, in_bounds bnd r = true) (live_rows b)).
  unfold live_rows in Hle at 2. rewrite length_rows in Hle.
  unfold live_vertices, live_velocities in Hlv, Hlw.
  rewrite drop_ge, app_nil_r in Hlv by (rewrite length_take; lia).
  rewrite drop_ge, app_nil_r in Hlw by (rewrite length_take; lia).
  unfold idx in *.
  repeat split; try done; lia.
Qed.

Lemma update_particle_counter bnd gs i b c :
  update_particle bnd gs i (b, c) =
    (fst (update_particle bnd gs i (b, 0)),
     c + (population (fst (update_particle bnd gs i (b, 0))) - population b)).
Proof.
  unfold update_particle. simpl.
  destruct (contains _ _); simpl.
  - f_equal. lia.
  - rewrite shift_population. simpl. f_equal. lia.
Qed.

Lemma scan_counter bnd gs n : ∀ b c,
  scan bnd gs n (b, c) =
    (fst (scan bnd gs n (b, 0)),
     c + (population (fst (scan bnd gs n (b, 0))) - population b)).
Proof.
  induction n as [|n IH]; intros b c; simpl.
  - f_equal. lia.
  - rewrite update_particle_counter.
    destruct (update_particle bnd gs (Z.of_nat n) (b, 0)) as [b1 c1] eqn:E.
    simpl. rewrite (update_particle_counter _ _ _ b 0) in E.
    injection E as E1 E2. rewrite IH, (IH b1 c1). simpl. f_equal. lia.
Qed.

Lemma scan_frame bnd gs n b c :
  fst (scan bnd gs n (b, c)) = fst (scan bnd gs n (b, 0)).
Proof. by rewrite scan_counter. Qed.

Lemma update_batch_counter bnd gs b c :
  update_batch bnd gs (b, c) =
    (updated bnd gs b, c + (population (updated bnd gs b) - population b)).
Proof. unfold updated, update_batch. simpl. apply scan_counter. Qed.

Lemma updated_wf bnd gs b : batch_wf b → batch_wf (updated bnd gs b).
Proof.
  intros Hwf. unfold updated.
  destruct (update_batch bnd gs (b, 0)) as [b' c'] eqn:E.
  by apply update_batch_spec in E as (_ & _ & _ & _ & ?).
Qed.

Lemma updated_population_le bnd gs b :
  batch_wf b → 0 <= population (updated bnd gs b) <= population b.
Proof.
  intros Hwf. unfold updated.
  destruct (update_batch bnd gs (b, 0)) as [b' c'] eqn:E.
  apply update_batch_spec in E as (Hp & _ & _ & _ & ?); [|done]. simpl.
  assert (Hle := length_filter (λ r, in_bounds bnd r = true) (live_rows b)).
  unfold live_rows in Hle at 2. rewrite length_rows in Hle.
  destruct Hwf as (_ & _ & _ & _ & ?). unfold idx in Hle. lia.
Qed.

Lemma elem_of_rows r n b :
  r ∈ rows n b → ∃ k, (k < n)%nat ∧ r = row_at b k.
Proof.
  unfold rows. intros Hr. apply list_elem_of_fmap in Hr as (k & -> & Hk).
  apply elem_of_seq in Hk. exists k. split; [lia|done].
Qed.

Lemma updated_spawned bnd gs b :
  batch_wf b → live_spawned b → live_spawned (updated bnd gs b).
Proof.
  intros Hwf Hsp. unfold updated.
  destruct (update_batch bnd gs (b, 0)) as [b' c'] eqn:E.
  apply update_batch_spec in E as (_ & _ & Hlv & _ & _); [|done]. simpl.
  unfold live_spawned. rewrite Hlv. apply Forall_fmap, list.Forall_forall.
  intros r Hr. apply list_elem_of_filter in Hr as [_ Hr].
  apply elem_of_rows in Hr as (k & Hk & ->).
  unfold row_at, integrate_row, row_vertex. simpl.
  unfold live_spawned, live_vertices in Hsp.
  rewrite Forall_lookup in Hsp. apply (Hsp k).
  destruct Hwf as (Hv & _ & _ & _ & Hp). rewrite lookup_take_lt by done.
  apply list_lookup_lookup_total_lt. unfold idx, K, MAX_BATCH_VERTS in *. lia.
Qed.

(** What the [else] branch does to a live slot [i] of a well-formed
    batch: population and counter go down by one, the vertices and
    velocities above [i] move down by one slot, the slots below [i] and the
    other two columns stay as they are. *)
Lemma remove_spec i b c :
  batch_wf b → 0 <= i < population b →
  let b' := fst (remove i (b, c)) in
  population b' = population b - 1 ∧
  snd (remove i (b, c)) = c - 1 ∧
  (∀ k, (k < idx i)%nat →
     vertices b' !!! k = vertices b !!! k ∧
     velocities b' !!! k = velocities b !!! k) ∧
  (∀ k, (idx i <= k < idx (population b) - 1)%nat →
     vertices b' !!! k = vertices b !!! S k ∧
     velocities b' !!! k = velocities b !!! S k) ∧
  acceleration b' = acceleration b ∧
  oldPositions b' = oldPositions b.
Proof.
  intros (Hv & _ & Hw & _ & Hp) Hi. cbv zeta. unfold remove. cbn [fst snd].
  set (b1 := mkBatch _ _ _ _ _). set (n := Z.to_nat _).
  assert (Hn : n = (idx (population b) - 1 - idx i)%nat)
    by (unfold n, b1, idx; simpl; lia).
  assert (HK : (idx (population b) <= K)%nat) by (unfold idx, K; lia).
  assert (Hvs := shift_vertices n i b1 ltac:(lia)).
  assert (Hws := shift_velocities n i b1 ltac:(lia)).
  simpl in Hvs, Hws. unfold idx in *.
  specialize (Hvs ltac:(lia)). specialize (Hws ltac:(lia)).
  rewrite shift_population, shift_acceleration, shift_oldPositions, Hvs, Hws.
  split; [done|]. split; [done|]. split; [|split; [|done]].
  - intros k Hk. split.
    + rewrite lookup_total_app_l by (rewrite length_take; lia).
      by rewrite lookup_total_take_lt by lia.
    + rewrite lookup_total_app_l by (rewrite length_take; lia).
      by rewrite lookup_total_take_lt by lia.
  - intros k Hk. split.
    + rewrite lookup_total_app_r by (rewrite length_take; lia).
      rewrite length_take, Hv.
      replace (Z.to_nat i `min` K)%nat with (Z.to_nat i) by lia.
      rewrite lookup_total_app_l by (rewrite length_take, length_drop; lia).
      rewrite lookup_total_take_lt by lia.
      rewrite lookup_total_drop. f_equal. lia.
    + rewrite lookup_total_app_r by (rewrite length_take; lia).
      rewrite length_take, Hw.
      replace (Z.to_nat i `min` K)%nat with (Z.to_nat i) by lia.
      rewrite lookup_total_app_l by (rewrite length_take, length_drop; lia).
      rewrite lookup_total_take_lt by lia.
      rewrite lookup_total_drop. f_equal. lia.
Qed.

End BatchFacts.

(** ** The spawner *)

Section SpawnFacts.
Context {T : Type} {ST : Scalar T}.
Implicit Types (b : batch T) (bs : list (batch T)) (c : Z).

Lemma back_population_snoc bs b : back_population (bs ++ [b]) = population b.
Proof.
  unfold back_population. rewrite length_app. simpl.
  replace (pred (length bs + 1)) with (length bs) by lia.
  by rewrite list_lookup_total_middle.
Qed.

Lemma alter_back {A} (f : A → A) (l : list A) (x : A) :
  alter f (pred (length (l ++ [x]))) (l ++ [x]) = l ++ [f x].
Proof.
  rewrite length_app. simpl.
  replace (pred (length l + 1)) with (length l + 0)%nat by lia.
  by rewrite alter_app_r.
Qed.

(** The two ways a call of [spawnParticle] goes: into the last batch, or
    into a batch it appends. *)
Lemma spawnParticle_cases pos vel bs c :
  (∃ bs' b, bs = bs' ++ [b] ∧ population b < MAX_BATCH_VERTS ∧
     spawnParticle pos vel (bs, c) =
       (bs' ++ [write_slot (population b) pos vel b], c + 1)) ∨
  ((bs = [] ∨ ∃ bs' b, bs = bs' ++ [b] ∧ MAX_BATCH_VERTS <= population b) ∧
     spawnParticle pos vel (bs, c) =
       (bs ++ [write_slot 0 pos vel new_batch], c + 1)).
Proof.
  destruct bs as [|b0 bs0] using rev_ind.
  - right. split; [by left|]. done.
  - clear IHbs0. unfold spawnParticle.
    rewrite decide_False by (by destruct bs0).
    rewrite back_population_snoc.
    destruct (MAX_BATCH_VERTS <=? population b0) eqn:E.
    + right. split; [right; exists bs0, b0; split; [done|lia]|].
      by rewrite alter_back.
    + left. exists bs0, b0. rewrite alter_back. split; [done|]. split; [lia|done].
Qed.

Lemma spawnParticle_populations pos vel bs c :
  population <$> fst (spawnParticle pos vel (bs, c)) =
  spawn_populations (population <$> bs).
Proof.
  unfold spawn_populations.
  destruct (spawnParticle_cases pos vel bs c)
    as [(bs' & b & -> & Hlt & ->)|[[->|(bs' & b & -> & Hge)] ->]]; simpl.
  - rewrite !fmap_app. simpl.
    rewrite decide_False by (by destruct (population <$> bs')).
    rewrite length_app. simpl.
    replace (pred (length (population <$> bs') + 1))
      with (length (population <$> bs')) by lia.
    rewrite list_lookup_total_middle by done.
    destruct (MAX_BATCH_VERTS <=? population b) eqn:E; [lia|].
    rewrite length_app. simpl.
    replace (pred (length (population <$> bs') + 1))
      with (length (population <$> bs') + 0)%nat by lia.
    by rewrite alter_app_r.
  - done.
  - rewrite !fmap_app. simpl.
    rewrite decide_False by (by destruct (population <$> bs')).
    rewrite length_app. simpl.
    replace (pred (length (population <$> bs') + 1))
      with (length (population <$> bs')) by lia.
    rewrite list_lookup_total_middle by done.
    destruct (MAX_BATCH_VERTS <=? population b) eqn:E; [|lia].
    by rewrite alter_back.
Qed.

Lemma spawn_all_populations pvs : ∀ bs c,
  population <$> fst (spawn_all pvs (bs, c)) =
  Nat.iter (length pvs) spawn_populations (population <$> bs).
Proof.
  induction pvs as [|[pos vel] pvs IH]; intros bs c; [done|].
  unfold spawn_all in *. cbn [foldl length fst snd].
  destruct (spawnParticle pos vel (bs, c)) as [bs1 c1] eqn:E.
  rewrite IH, Nat.iter_succ_r. f_equal.
  by rewrite <- (spawnParticle_populations pos vel bs c), E.
Qed.

Lemma spawnParticle_counter pos vel bs c :
  snd (spawnParticle pos vel (bs, c)) = c + 1.
Proof.
  by destruct (spawnParticle_cases pos vel bs c)
    as [(bs' & b & -> & Hlt & ->)|[_ ->]].
Qed.


Lemma new_batch_wf : batch_wf (new_batch (T := T)).
Proof.
  unfold batch_wf, new_batch. cbn [vertices oldPositions velocities acceleration population].
  rewrite !length_replicate. unfold MAX_BATCH_VERTS. repeat split; lia.
Qed.

Lemma new_batch_spawned : live_spawned (new_batch (T := T)).
Proof. unfold live_spawned, live_vertices. simpl. constructor. Qed.

Lemma write_slot_wf pos vel b :
  batch_wf b → population b < MAX_BATCH_VERTS →
  batch_wf (write_slot (population b) pos vel b).
Proof.
  intros (? & ? & ? & ? & ?) Hlt. unfold batch_wf, write_slot. simpl.
  rewrite !length_insert. repeat split; try done; lia.
Qed.

(** The live rows after a spawn: the old ones, then the new particle. *)
Lemma write_slot_live pos vel b :
  batch_wf b → population b < MAX_BATCH_VERTS →
  live_vertices (write_slot (population b) pos vel b) =
    live_vertices b ++ [mkVertex pos Yellow vzero] ∧
  live_velocities (write_slot (population b) pos vel b) =
    live_velocities b ++ [vel].
Proof.
  intros (Hv & _ & Hw & _ & Hp) Hlt.
  unfold live_vertices, live_velocities, write_slot. simpl.
  assert (Hi : idx (population b + 1) = S (idx (population b)))
    by (unfold idx; lia).
  assert (HK : (idx (population b) < K)%nat)
    by (unfold idx, K; lia).
  rewrite Hi. split.
  - rewrite (take_S_r _ _ (mkVertex pos Yellow vzero)).
    + by rewrite take_insert_ge by lia.
    + apply list_lookup_insert_eq. lia.
  - rewrite (take_S_r _ _ vel).
    + by rewrite take_insert_ge by lia.
    + apply list_lookup_insert_eq. lia.
Qed.

Lemma write_slot_spawned pos vel b :
  batch_wf b → live_spawned b → population b < MAX_BATCH_VERTS →
  live_spawned (write_slot (population b) pos vel b).
Proof.
  intros Hwf Hsp Hlt. unfold live_spawned.
  destruct (write_slot_live pos vel b Hwf Hlt) as [-> _].
  apply Forall_app. split; [done|]. by constructor.
Qed.

Lemma total_population_app bs1 bs2 :
  total_population (bs1 ++ bs2) = total_population bs1 + total_population bs2.
Proof.
  unfold total_population. induction bs1 as [|b bs1 IH]; simpl; [done|].
  rewrite IH. lia.
Qed.

Lemma spawn_wf pos vel (s : sys T) : sys_wf s → sys_wf (spawn pos vel s).
Proof.
  intros [Hbs Hc]. unfold spawn, sys_wf.
  destruct (spawnParticle_cases pos vel (particles (env s)) (particleCounter s))
    as [(bs' & b & E & Hlt & ->)|[Hfull ->]]; simpl.
  - rewrite E in Hbs, Hc. apply Forall_app in Hbs as [Hbs' Hb].
    apply Forall_singleton in Hb as [Hwf Hsp].
    rewrite total_population_app in *. unfold total_population in *.
    simpl in *. split; [|lia].
    apply Forall_app. split; [done|]. apply Forall_singleton.
    split; [by apply write_slot_wf|by apply write_slot_spawned].
  - rewrite total_population_app. unfold total_population at 2. simpl.
    split; [|lia].
    apply Forall_app. split; [done|]. apply Forall_singleton.
    change (write_slot 0 pos vel new_batch)
      with (write_slot (population new_batch) pos vel (new_batch (T := T))).
    split.
    + apply write_slot_wf; [apply new_batch_wf|done].
    + apply write_slot_spawned;
        [apply new_batch_wf|apply new_batch_spawned|done].
Qed.

Lemma spawn_world_wf pos vel (s : sys T) :
  world_wf (env s) → world_wf (env (spawn pos vel s)).
Proof.
  intros Hbs. unfold spawn, world_wf in *.
  destruct (spawnParticle_cases pos vel (particles (env s)) (particleCounter s))
    as [(bs' & b & E & Hlt & ->)|[Hfull ->]]; simpl.
  - rewrite E in Hbs. apply Forall_app in Hbs as [Hbs' Hb].
    apply Forall_singleton in Hb as [Hwf Hsp].
    apply Forall_app. split; [done|]. apply Forall_singleton.
    split; [by apply write_slot_wf|by apply write_slot_spawned].
  - apply Forall_app. split; [done|]. apply Forall_singleton.
    change (write_slot 0 pos vel new_batch)
      with (write_slot (population new_batch) pos vel (new_batch (T := T))).
    split.
    + apply write_slot_wf; [apply new_batch_wf|done].
    + apply write_slot_spawned;
        [apply new_batch_wf|apply new_batch_spawned|done].
Qed.

(** What a call of [spawnParticle] writes, in a well-formed world: the slot
    [N] is in range, the last batch of the result has the position and the
    velocity in that slot and one more particle than the slot index, the
    counter goes up by one; the acceleration column of that batch is the one
    it had, or that of a new batch. *)
Lemma spawnParticle_spec pos vel bs c :
  Forall batch_wf bs →
  ∃ bs' b b', fst (spawnParticle pos vel (bs, c)) = bs' ++ [b'] ∧
    (bs = bs' ++ [b] ∨ (bs = bs' ∧ b = new_batch)) ∧
    0 <= population b < MAX_BATCH_VERTS ∧
    position (vertices b' !!! idx (population b)) = pos ∧
    velocities b' !!! idx (population b) = vel ∧
    acceleration b' = acceleration b ∧
    population b' = population b + 1 ∧
    snd (spawnParticle pos vel (bs, c)) = c + 1.
Proof.
  intros Hwf.
  destruct (spawnParticle_cases pos vel bs c)
    as [(bs' & b & E & Hlt & ->)|[Hfull ->]]; cbn [fst snd].
  - exists bs', b, (write_slot (population b) pos vel b).
    rewrite E in Hwf. apply Forall_app in Hwf as [_ Hb].
    apply Forall_singleton in Hb as (Hv & _ & Hw & _ & Hp).
    assert (HK : (idx (population b) < K)%nat) by (unfold idx, K; lia).
    unfold write_slot. cbn [vertices velocities acceleration population].
    rewrite !list_lookup_total_insert_eq by lia.
    repeat split; try done; try lia. by left.
  - exists bs, new_batch, (write_slot 0 pos vel new_batch).
    destruct new_batch_wf as (Hv & _ & Hw & _ & Hp).
    unfold write_slot. cbn [vertices velocities acceleration population].
    change (population (new_batch (T := T))) with 0 in *.
    assert (HK : (idx 0 < K)%nat) by (unfold idx, K, MAX_BATCH_VERTS; lia).
    rewrite !list_lookup_total_insert_eq by lia.
    repeat split; try done; try (unfold MAX_BATCH_VERTS; lia). by right.
Qed.

End SpawnFacts.

(** ** The partition of the batches among the workers *)

Section PartitionFacts.

Lemma partition_nonzero MAX_THREADS size id :
  MAX_THREADS ≠ 0 →
  partition MAX_THREADS size id =
    Some (size / MAX_THREADS * id,
          if id =? MAX_THREADS - 1 then size
          else size / MAX_THREADS * (id + 1)).
Proof.
  intros H. unfold partition. by destruct (Z.eqb_spec MAX_THREADS 0).
Qed.

Lemma partition_bounds MAX_THREADS size id a b :
  1 <= MAX_THREADS → 0 <= size → 0 <= id < MAX_THREADS →
  partition MAX_THREADS size id = Some (a, b) →
  0 <= a <= b ∧ b <= size ∧
  (id < MAX_THREADS - 1 → b - a = size / MAX_THREADS) ∧
  (id = 0 → a = 0) ∧ (id = MAX_THREADS - 1 → b = size).
Proof.
  intros HT HM Hid. rewrite partition_nonzero by lia. intros [= <- <-].
  assert (Hq : 0 <= size / MAX_THREADS) by (apply Z.div_pos; lia).
  assert (Hm : MAX_THREADS * (size / MAX_THREADS) <= size)
    by (apply Z.mul_div_le; lia).
  destruct (Z.eqb_spec id (MAX_THREADS - 1)); repeat split; try nia.
Qed.

Lemma partition_contiguous MAX_THREADS size id a b a' b' :
  1 <= MAX_THREADS → 0 <= id < MAX_THREADS - 1 →
  partition MAX_THREADS size id = Some (a, b) →
  partition MAX_THREADS size (id + 1) = Some (a', b') →
  b = a'.
Proof.
  intros HT Hid. rewrite !partition_nonzero by lia.
  intros [= <- <-] [= <- <-].
  destruct (Z.eqb_spec id (MAX_THREADS - 1)); [lia|done].
Qed.

Lemma partition_disjoint MAX_THREADS size id id' a b a' b' j :
  1 <= MAX_THREADS → 0 <= size →
  0 <= id < MAX_THREADS → 0 <= id' < MAX_THREADS → id ≠ id' →
  partition MAX_THREADS size id = Some (a, b) →
  partition MAX_THREADS size id' = Some (a', b') →
  a <= j < b → a' <= j < b' → False.
Proof.
  intros HT HM Hid Hid' Hne. rewrite !partition_nonzero by lia.
  intros [= <- <-] [= <- <-].
  assert (Hq : 0 <= size / MAX_THREADS) by (apply Z.div_pos; lia).
  assert (Hm : MAX_THREADS * (size / MAX_THREADS) <= size)
    by (apply Z.mul_div_le; lia).
  destruct (Z.eqb_spec id (MAX_THREADS - 1));
    destruct (Z.eqb_spec id' (MAX_THREADS - 1)); nia.
Qed.

Lemma partition_cover MAX_THREADS size j :
  1 <= MAX_THREADS → 0 <= j < size →
  ∃ id a b, 0 <= id < MAX_THREADS ∧
    partition MAX_THREADS size id = Some (a, b) ∧ a <= j < b.
Proof.
  intros HT Hj.
  assert (Hq : 0 <= size / MAX_THREADS) by (apply Z.div_pos; lia).
  destruct (decide (size / MAX_THREADS * (MAX_THREADS - 1) <= j)) as [Hlast|Hlast].
  - exists (MAX_THREADS - 1), (size / MAX_THREADS * (MAX_THREADS - 1)), size.
    rewrite partition_nonzero, Z.eqb_refl by lia. repeat split; lia.
  - assert (Hpos : 0 < size / MAX_THREADS) by nia.
    exists (j / (size / MAX_THREADS)).
    eexists _, _. rewrite partition_nonzero by lia.
    assert (H1 := Z.mul_div_le j (size / MAX_THREADS) Hpos).
    assert (H2 := Z.mul_succ_div_gt j (size / MAX_THREADS) Hpos).
    assert (H3 : 0 <= j / (size / MAX_THREADS)) by (apply Z.div_pos; lia).
    assert (H4 : j / (size / MAX_THREADS) < MAX_THREADS - 1) by nia.
    destruct (Z.eqb_spec (j / (size / MAX_THREADS)) (MAX_THREADS - 1));
      [lia|].
    repeat split; try done; lia.
Qed.

End PartitionFacts.

(** ** A pass in progress *)

Section PassFacts.
Context {T : Type} {ST : Scalar T}.
Implicit Types (s : sys T) (b : batch T) (bs : list (batch T)).

Lemma total_population_insert bs j b b' :
  bs !! j = Some b →
  total_population (<[j := b']> bs) =
    total_population bs - population b + population b'.
Proof.
  revert j. induction bs as [|b0 bs IH]; intros [|j] Hj; try done.
  - injection Hj as ->. unfold total_population. simpl. lia.
  - simpl in Hj. apply IH in Hj. unfold total_population in *. simpl.
    rewrite Hj. lia.
Qed.

Lemma agree_refl s0 : agree (λ _, False) s0 s0.
Proof. unfold agree. repeat split; done. Qed.

Lemma agree_ext (D D' : nat → Prop) s0 s :
  (∀ j, (j < length (particles (env s0)))%nat → D j ↔ D' j) →
  agree D s0 s → agree D' s0 s.
Proof.
  intros HD (Hb & Hg & Hl & Hp & Hc). unfold agree.
  repeat split; try done.
  - intros HD'. apply (Hp j b H), HD; [|done].
    by apply lookup_lt_Some in H.
  - intros HD'. apply (Hp j b H). intros HDj. apply HD', HD; [|done].
    by apply lookup_lt_Some in H.
Qed.

Lemma agree_update_at D s0 s j :
  agree D s0 s → ¬ D j → (j < length (particles (env s0)))%nat →
  agree (λ j', D j' ∨ j' = j) s0 (update_at (Z.of_nat j) s).
Proof.
  intros (Hb & Hg & Hl & Hp & Hc) HD Hj.
  destruct (lookup_lt_is_Some_2 (particles (env s0)) j Hj) as [b Hb0].
  destruct (Hp j b Hb0) as [_ Hsj]. specialize (Hsj HD).
  unfold update_at. rewrite idx_of_nat, Hsj.
  rewrite update_batch_counter, Hb, Hg.
  unfold agree. simpl. rewrite length_insert.
  repeat split; try done.
  - intros [HDj| ->].
    + destruct (decide (j0 = j)) as [->|Hne].
      * rewrite list_lookup_insert_eq by lia. congruence.
      * rewrite list_lookup_insert_ne by done. by apply (Hp j0 b0 H).
    + rewrite list_lookup_insert_eq by lia. congruence.
  - intros Hn. rewrite list_lookup_insert_ne by (intros ->; tauto).
    apply (Hp j0 b0 H). tauto.
  - rewrite (total_population_insert _ _ b) by done. lia.
Qed.

Lemma agree_all D s0 s :
  agree D s0 s → (∀ j, (j < length (particles (env s0)))%nat → D j) →
  s = all_updated s0.
Proof.
  intros (Hb & Hg & Hl & Hp & Hc) HD.
  assert (Hps : particles (env s) =
    map (updated (bounds (env s0)) (gravFields (env s0))) (particles (env s0))).
  { apply list_eq. intros j. rewrite list_lookup_fmap.
    destruct (particles (env s0) !! j) as [b|] eqn:E; simpl.
    - apply (Hp j b E), HD. by apply lookup_lt_Some in E.
    - apply lookup_ge_None. apply lookup_ge_None in E. lia. }
  unfold all_updated. destruct s as [[bnd ps gs] c]. simpl in *.
  subst. f_equal. lia.
Qed.

Lemma agree_loop_j n : ∀ D s0 s j,
  agree D s0 s →
  (∀ j', (j <= j' < j + n)%nat → ¬ D j') →
  (j + n <= length (particles (env s0)))%nat →
  agree (λ j', D j' ∨ (j <= j' < j + n)%nat) s0 (loop_j n (Z.of_nat j) s).
Proof.
  induction n as [|n IH]; intros D s0 s j Hag HD Hn; simpl.
  - eapply agree_ext; [|done]. intros j' _. split; [by left|].
    intros [?|?]; [done|lia].
  - replace (Z.of_nat j + 1) with (Z.of_nat (S j)) by lia.
    eapply agree_ext; [|apply IH; [apply agree_update_at; [done| |lia]| |lia]].
    + intros j' _. simpl. destruct (decide (j' = j)); intuition lia.
    + apply HD. lia.
    + intros j' Hj' [HDj| ->]; [|lia]. apply (HD j'); [lia|done].
Qed.

(** The single-threaded pass updates every batch. *)
Lemma sequential_pass_all s : sequential_pass s = all_updated s.
Proof.
  unfold sequential_pass.
  apply (agree_all (λ j', False ∨ (0 <= j' < 0 + length (particles (env s)))%nat)).
  - apply (agree_loop_j _ _ s s 0%nat); [apply agree_refl|tauto|lia].
  - intros j Hj. right. lia.
Qed.

End PassFacts.

(** ** The workers of a pass *)

Section PoolFacts.
Context {T : Type} {ST : Scalar T}.
Context (thNum : Z) (s0 : sys T) (HT : 1 <= thNum).
Implicit Types (p : pool T) (w : worker) (ws : list worker) (id : nat).

Lemma range_partition id :
  partition thNum (batch_count s0) (Z.of_nat id) = Some (range thNum (batch_count s0) id).
Proof. unfold range. by rewrite partition_nonzero by lia. Qed.

Lemma range_bounds id :
  Z.of_nat id < thNum →
  0 <= fst (range thNum (batch_count s0) id) <= snd (range thNum (batch_count s0) id) ∧
  snd (range thNum (batch_count s0) id) <= (batch_count s0).
Proof.
  intros Hid. destruct (range thNum (batch_count s0) id) as [a b] eqn:E.
  assert (HP := range_partition id). rewrite E in HP.
  apply partition_bounds in HP; [simpl; lia|lia|unfold batch_count; lia|lia].
Qed.

Lemma range_disjoint id id' j :
  Z.of_nat id < thNum → Z.of_nat id' < thNum → id ≠ id' →
  fst (range thNum (batch_count s0) id) <= j < snd (range thNum (batch_count s0) id) →
  fst (range thNum (batch_count s0) id') <= j < snd (range thNum (batch_count s0) id') → False.
Proof.
  intros Hid Hid' Hne.
  assert (HP := range_partition id). assert (HP' := range_partition id').
  destruct (range thNum (batch_count s0) id) as [a b], (range thNum (batch_count s0) id') as [a' b'].
  simpl. intros H1 H2.
  eapply (partition_disjoint thNum (batch_count s0) (Z.of_nat id) (Z.of_nat id'));
    try done; unfold batch_count; lia.
Qed.

Lemma range_cover j :
  0 <= j < (batch_count s0) →
  ∃ id, Z.of_nat id < thNum ∧
    fst (range thNum (batch_count s0) id) <= j < snd (range thNum (batch_count s0) id).
Proof.
  intros Hj. destruct (partition_cover thNum (batch_count s0) j HT Hj)
    as (i & a & b & Hi & HP & Hab).
  exists (Z.to_nat i). split; [lia|].
  unfold range. replace (Z.of_nat (Z.to_nat i)) with i by lia.
  by rewrite HP.
Qed.

Lemma count_insert (P : worker → Prop) `{!∀ w, Decision (P w)} ws id w w' :
  ws !! id = Some w →
  (length (filter P (<[id := w']> ws)) + (if decide (P w) then 1 else 0)
   = length (filter P ws) + (if decide (P w') then 1 else 0))%nat.
Proof.
  revert id. induction ws as [|w0 ws IH]; intros [|id] Hid; try done.
  - injection Hid as ->. simpl. rewrite !filter_cons.
    destruct (decide (P w)), (decide (P w')); simpl; lia.
  - simpl in Hid. apply IH in Hid. simpl. rewrite !filter_cons.
    destruct (decide (P w0)), (decide (P w)), (decide (P w')); simpl in *; lia.
Qed.

Lemma processed_insert ws id w w' j :
  ws !! id = Some w →
  progress thNum (batch_count s0) id w <= progress thNum (batch_count s0) id w' →
  processed thNum (batch_count s0) (<[id := w']> ws) j ↔
  processed thNum (batch_count s0) ws j ∨
  fst (range thNum (batch_count s0) id) <= Z.of_nat j < progress thNum (batch_count s0) id w'.
Proof.
  intros Hid Hle. unfold processed. split.
  - intros (id' & w'' & Hl & Hj).
    destruct (decide (id' = id)) as [->|Hne].
    + rewrite list_lookup_insert_eq in Hl by (by eapply lookup_lt_Some).
      injection Hl as <-. by right.
    + rewrite list_lookup_insert_ne in Hl by done. left. eauto.
  - intros [(id' & w'' & Hl & Hj)|Hj].
    + destruct (decide (id' = id)) as [->|Hne].
      * exists id, w'. rewrite list_lookup_insert_eq by (by eapply lookup_lt_Some).
        split; [done|]. rewrite Hid in Hl. injection Hl as <-. lia.
      * exists id', w''. by rewrite list_lookup_insert_ne by done.
    + exists id, w'. by rewrite list_lookup_insert_eq by (by eapply lookup_lt_Some).
Qed.

Lemma progress_le_end p id w :
  pool_inv thNum s0 p → workers p !! id = Some w →
  progress thNum (batch_count s0) id w <= snd (range thNum (batch_count s0) id).
Proof.
  intros (Hlen & Hloop & _) Hw.
  assert (Hid : Z.of_nat id < thNum) by (apply lookup_lt_Some in Hw; lia).
  destruct w as [|j END|]; simpl.
  - apply range_bounds, Hid.
  - apply Hloop in Hw. lia.
  - lia.
Qed.

Lemma need_nonneg p id w :
  pool_inv thNum s0 p → workers p !! id = Some w → 0 <= need (batch_count s0) w.
Proof.
  intros (Hlen & Hloop & _) Hw. destruct w as [|j END|]; simpl.
  - unfold batch_count. lia.
  - apply Hloop in Hw. lia.
  - lia.
Qed.


Lemma batch_count_shared p :
  pool_inv thNum s0 p → batch_count (shared p) = (batch_count s0).
Proof.
  intros (_ & _ & (_ & _ & Hl & _) & _). unfold batch_count. by rewrite Hl.
Qed.

(** A worker inside its loop has not yet touched the batch [j] it is at,
    and no other worker has. *)
Lemma current_unprocessed p id j END :
  pool_inv thNum s0 p → workers p !! id = Some (Looping j END) → j < END →
  ¬ processed thNum (batch_count s0) (workers p) (Z.to_nat j).
Proof.
  intros Hinv Hw Hj (id' & w' & Hw' & Hin).
  pose proof Hinv as (Hlen & Hloop & _).
  destruct (Hloop _ _ _ Hw) as [-> Hr].
  rewrite Z2Nat.id in Hin by (apply lookup_lt_Some in Hw;
    pose proof (range_bounds id); lia).
  destruct (decide (id' = id)) as [->|Hne].
  - rewrite Hw in Hw'. injection Hw' as <-. simpl in Hin. lia.
  - assert (Hle := progress_le_end p id' w' Hinv Hw').
    apply lookup_lt_Some in Hw, Hw'.
    apply (range_disjoint id id' j); lia.
Qed.

Lemma pool_step_spec p id :
  pool_inv thNum s0 p →
  ∃ p', pool_step thNum p id = Some p' ∧ pool_inv thNum s0 p' ∧
    ∀ id' w, workers p !! id' = Some w →
      ∃ w', workers p' !! id' = Some w' ∧ need (batch_count s0) w' <= need (batch_count s0) w ∧
        (id' = id → need (batch_count s0) w' <= Z.max 0 (need (batch_count s0) w - 1)).
Proof.
  intros Hinv. pose proof Hinv as (Hlen & Hloop & Hag & Hsig).
  unfold pool_step. destruct (workers p !! id) as [w|] eqn:Hw.
  2:{ exists p. split; [done|]. split; [done|]. intros id' w Hw'. exists w.
      split; [done|]. split; [lia|]. intros ->. congruence. }
  assert (Hid : (id < length (workers p))%nat) by (by eapply lookup_lt_Some).
  assert (Hrb := range_bounds id ltac:(lia)).
  assert (Hothers : ∀ w1 id' w', id' ≠ id → workers p !! id' = Some w' →
    ∃ w'', <[id := w1]> (workers p) !! id' = Some w'' ∧
      need (batch_count s0) w'' <= need (batch_count s0) w' ∧
      (id' = id → need (batch_count s0) w'' <= Z.max 0 (need (batch_count s0) w' - 1))).
  { intros w1 id' w' Hne Hw'. exists w'.
    rewrite list_lookup_insert_ne by done.
    split; [done|]. split; [lia|done]. }
  destruct w as [|j END|]; simpl.
  - (* the worker computes its range *)
    rewrite (batch_count_shared p Hinv), range_partition.
    destruct (range thNum (batch_count s0) id) as [a b] eqn:Er. simpl in Hrb.
    eexists. split; [done|]. split.
    + unfold pool_inv. simpl. rewrite length_insert.
      split; [done|]. split; [|split].
      * intros id' j' END' Hl. destruct (decide (id' = id)) as [->|Hne].
        -- rewrite list_lookup_insert_eq in Hl by done.
           injection Hl as <- <-. rewrite Er. simpl. lia.
        -- rewrite list_lookup_insert_ne in Hl by done. by apply Hloop.
      * eapply agree_ext; [|exact Hag]. intros j' _.
        rewrite (processed_insert _ id Spawned) by (simpl; rewrite ?Er; done).
        simpl. rewrite Er. simpl. intuition lia.
      * assert (Hc := count_insert (λ w, w = Signalled) (workers p) id
                        Spawned (Looping a b) Hw).
        rewrite !decide_False in Hc by done. lia.
    + simpl. intros id' w Hw'. destruct (decide (id' = id)) as [->|Hne];
        [|by apply Hothers].
      rewrite Hw in Hw'. injection Hw' as <-. exists (Looping a b).
      rewrite list_lookup_insert_eq by done. simpl.
      assert (0 <= (batch_count s0)) by (unfold batch_count; lia).
      split; [done|]. split; [lia|]. intros _. lia.
  - destruct (Hloop _ _ _ Hw) as [HE Hj].
    destruct (Z.ltb_spec j END) as [Hlt|Hge].
    + (* one turn of the loop over j *)
      eexists. split; [done|]. split.
      * unfold pool_inv. simpl. rewrite length_insert.
        split; [done|]. split; [|split].
        -- intros id' j' END' Hl. destruct (decide (id' = id)) as [->|Hne].
           ++ rewrite list_lookup_insert_eq in Hl by done.
              injection Hl as <- <-. lia.
           ++ rewrite list_lookup_insert_ne in Hl by done. by apply Hloop.
        -- replace j with (Z.of_nat (Z.to_nat j)) at 2 by lia.
           eapply agree_ext; [|apply agree_update_at; [exact Hag| |]].
           ++ intros j' _. simpl.
              rewrite (processed_insert _ id (Looping j END)) by (simpl; done || lia).
              simpl. split; [intros [?| ->]|intros [?|?]].
              ** by left.
              ** right. lia.
              ** by left.
              ** destruct (decide (j' = Z.to_nat j)) as [->|]; [by right|].
                 left. exists id, (Looping j END). simpl. split; [done|lia].
           ++ by eapply current_unprocessed.
           ++ unfold batch_count in *. lia.
        -- assert (Hc := count_insert (λ w, w = Signalled) (workers p) id
                        (Looping j END) (Looping (j + 1) END) Hw).
           rewrite !decide_False in Hc by done. lia.
      * simpl. intros id' w Hw'. destruct (decide (id' = id)) as [->|Hne];
          [|by apply Hothers].
        rewrite Hw in Hw'. injection Hw' as <-. exists (Looping (j + 1) END).
        rewrite list_lookup_insert_eq by done. simpl.
        split; [done|]. split; [lia|]. intros _. lia.
    + (* the worker leaves the loop and signals *)
      eexists. split; [done|]. split.
      * unfold pool_inv. simpl. rewrite length_insert.
        split; [done|]. split; [|split].
        -- intros id' j' END' Hl. destruct (decide (id' = id)) as [->|Hne].
           ++ by rewrite list_lookup_insert_eq in Hl by done.
           ++ rewrite list_lookup_insert_ne in Hl by done. by apply Hloop.
        -- eapply agree_ext; [|exact Hag]. intros j' _.
           rewrite (processed_insert _ id (Looping j END)) by (simpl; done || lia).
           simpl. split; [by left|]. intros [?|?]; [done|].
           exists id, (Looping j END). simpl. split; [done|lia].
        -- assert (Hc := count_insert (λ w, w = Signalled) (workers p) id
                        (Looping j END) Signalled Hw).
           rewrite decide_False, decide_True in Hc by done. lia.
      * simpl. intros id' w Hw'. destruct (decide (id' = id)) as [->|Hne];
          [|by apply Hothers].
        rewrite Hw in Hw'. injection Hw' as <-. exists Signalled.
        rewrite list_lookup_insert_eq by done. simpl.
        split; [done|]. split; [lia|]. intros _. lia.
  - (* the worker has exited *)
    rewrite list_insert_id by done. exists p.
    split; [by destruct p|]. split; [done|].
    intros id' w Hw'. exists w. split; [done|]. split; [lia|].
    intros ->. rewrite Hw in Hw'. injection Hw' as <-. simpl. lia.
Qed.


Lemma run_pool_spec sched : ∀ p,
  pool_inv thNum s0 p →
  ∃ p', run_pool thNum sched p = Some p' ∧ pool_inv thNum s0 p' ∧
    ∀ id w, workers p !! id = Some w →
      ∃ w', workers p' !! id = Some w' ∧
        need (batch_count s0) w' <=
          Z.max 0 (need (batch_count s0) w - Z.of_nat (length (filter (λ x, x = id) sched))).
Proof.
  induction sched as [|id0 sched IH]; intros p Hinv; simpl.
  - exists p. split; [done|]. split; [done|]. intros id w Hw. exists w.
    split; [done|]. simpl. lia.
  - destruct (pool_step_spec p id0 Hinv) as (p1 & -> & Hinv1 & Hneed1).
    destruct (IH p1 Hinv1) as (p' & Hrun & Hinv' & Hneed).
    exists p'. split; [done|]. split; [done|]. intros id w Hw.
    destruct (Hneed1 id w Hw) as (w1 & Hw1 & Hle & Hdec).
    destruct (Hneed id w1 Hw1) as (w' & Hw' & Hle').
    exists w'. split; [done|]. rewrite filter_cons.
    destruct (decide (id0 = id)) as [->|Hne]; simpl.
    + specialize (Hdec eq_refl). lia.
    + lia.
Qed.

Lemma initial_pool_inv :
  pool_inv thNum s0 (mkPool (replicate (Z.to_nat thNum) Spawned) s0 0).
Proof.
  unfold pool_inv. simpl. rewrite length_replicate.
  split; [done|]. split; [|split].
  - intros id j END Hl. by apply lookup_replicate in Hl as [? _].
  - eapply agree_ext; [|apply agree_refl]. intros j _. split; [done|].
    intros (id & w & Hl & Hj). apply lookup_replicate in Hl as [-> _].
    simpl in Hj. lia.
  - induction (Z.to_nat thNum) as [|n IH]; simpl; [done|].
    by rewrite filter_cons_False.
Qed.

Lemma filter_length_all {A} (P : A → Prop) `{!∀ x, Decision (P x)} (l : list A) :
  length (filter P l) = length l → Forall P l.
Proof.
  induction l as [|x l IH]; [constructor|].
  rewrite filter_cons. destruct (decide (P x)); simpl; intros Hl.
  - constructor; [done|]. apply IH. lia.
  - assert (Hle := length_filter P l). lia.
Qed.

Lemma filter_all_length {A} (P : A → Prop) `{!∀ x, Decision (P x)} (l : list A) :
  Forall P l → length (filter P l) = length l.
Proof.
  induction 1 as [|x l Hx Hl IH]; [done|].
  rewrite filter_cons_True by done. simpl. by rewrite IH.
Qed.

Lemma barrier_all_signalled p id w :
  pool_inv thNum s0 p → threadSignals p = thNum →
  workers p !! id = Some w → w = Signalled.
Proof.
  intros (Hlen & _ & _ & Hsig) Hopen Hw.
  assert (Hall : Forall (λ w, w = Signalled) (workers p)).
  { apply (filter_length_all (λ w, w = Signalled)). lia. }
  rewrite Forall_lookup in Hall. by apply (Hall id w).
Qed.

(** Past the barrier, every batch has been updated. *)
Lemma barrier_result p :
  pool_inv thNum s0 p → threadSignals p = thNum →
  shared p = all_updated s0.
Proof.
  intros Hinv Hopen. pose proof Hinv as (Hlen & _ & Hag & _).
  apply (agree_all _ _ _ Hag). intros j Hj.
  destruct (range_cover (Z.of_nat j)) as (id & Hid & Hr);
    [unfold batch_count; lia|].
  destruct (lookup_lt_is_Some_2 (workers p) id) as [w Hw]; [lia|].
  assert (w = Signalled) as -> by (by eapply barrier_all_signalled).
  exists id, Signalled. by split.
Qed.

(** When [updateSystem] returns, the state is that of the sequential
    pass, but for the decrements of the counter lost to the race. *)
Lemma updateSystem_returns sched lost s :
  updateSystem thNum sched lost s0 = Returned s →
  s = raced thNum lost (sequential_pass s0).
Proof.
  unfold updateSystem.
  destruct (run_pool_spec sched _ initial_pool_inv) as (p & -> & Hinv & _).
  destruct (Z.eqb_spec (threadSignals p) thNum) as [Hopen|]; [|done].
  intros [= <-]. rewrite sequential_pass_all. by rewrite (barrier_result p).
Qed.

Lemma updateSystem_defined sched lost :
  updateSystem thNum sched lost s0 ≠ Undefined.
Proof.
  unfold updateSystem.
  destruct (run_pool_spec sched _ initial_pool_inv) as (p & -> & Hinv & _).
  by destruct (threadSignals p =? thNum).
Qed.

(** Under a fair schedule [updateSystem] returns. *)
Lemma updateSystem_fair sched lost :
  fair thNum (batch_count s0) sched →
  updateSystem thNum sched lost s0 =
    Returned (raced thNum lost (sequential_pass s0)).
Proof.
  intros Hfair. unfold updateSystem.
  destruct (run_pool_spec sched _ initial_pool_inv) as (p & -> & Hinv & Hneed).
  simpl in Hneed. pose proof Hinv as (Hlen & Hloop & _ & Hsig).
  assert (Hall : Forall (λ w, w = Signalled) (workers p)).
  { apply Forall_lookup. intros id w Hw.
    assert (Hid : (id < Z.to_nat thNum)%nat)
      by (apply lookup_lt_Some in Hw; lia).
    destruct (Hneed id Spawned) as (w' & Hw' & Hle);
      [by apply lookup_replicate_2|].
    rewrite Hw in Hw'. injection Hw' as <-.
    specialize (Hfair id ltac:(lia)). simpl in Hle.
    destruct w as [|j END|]; simpl in Hle; [|apply Hloop in Hw|done].
    - unfold batch_count in *. lia.
    - lia. }
  assert (Hopen : threadSignals p = thNum).
  { rewrite Hsig, (filter_all_length (λ w, w = Signalled)) by done. lia. }
  rewrite <- Z.eqb_eq in Hopen. rewrite Hopen.
  rewrite Z.eqb_eq in Hopen.
  by rewrite sequential_pass_all, (barrier_result p).
Qed.

End PoolFacts.

(** ** updateSystem and the invariant *)

Section SystemFacts.
Context {T : Type} {ST : Scalar T}.
Implicit Types (s : sys T).

Lemma run_pool_no_workers thNum sched s n :
  run_pool thNum sched (mkPool [] s n) = Some (mkPool [] s n).
Proof. induction sched as [|id sched IH]; simpl; [done|]. apply IH. Qed.

(** With no worker nothing is updated, and nothing is waited for. *)
Lemma updateSystem_zero sched lost s :
  updateSystem 0 sched lost s = Returned s.
Proof. unfold updateSystem. simpl. by rewrite run_pool_no_workers. Qed.

Lemma env_raced thNum lost s : env (raced thNum lost s) = env s.
Proof. unfold raced. by destruct (thNum <=? 1). Qed.

Lemma raced_single thNum lost s : thNum <= 1 → raced thNum lost s = s.
Proof. intros H. unfold raced. by destruct (Z.leb_spec thNum 1); [|lia]. Qed.

Lemma updateSystem_negative thNum sched lost s :
  thNum < 0 → updateSystem thNum sched lost s = Waiting.
Proof.
  intros H. unfold updateSystem.
  replace (Z.to_nat thNum) with 0%nat by lia. cbn [replicate].
  rewrite run_pool_no_workers. cbn [threadSignals].
  destruct (Z.eqb_spec 0 thNum); [lia|done].
Qed.

(** [update] with a single worker is the sequential pass. *)
Lemma update_single s n :
  update 1 0 (s, n) = Returned (sequential_pass s, n + 1).
Proof.
  unfold update, sequential_pass, partition, batch_count.
  cbn [fst snd]. change (1 =? 0) with false. change (0 =? 1 - 1) with true.
  cbv iota. rewrite Z.div_1_r, Z.mul_0_r, Z.sub_0_r, Nat2Z.id. done.
Qed.

Lemma all_updated_wf s : sys_wf s → sys_wf (all_updated s).
Proof.
  intros [Hbs Hc]. unfold sys_wf, all_updated. simpl. split; [|lia].
  apply Forall_fmap. eapply list.Forall_impl; [exact Hbs|].
  intros b [Hwf Hsp]. simpl. split.
  - by apply updated_wf.
  - by apply updated_spawned.
Qed.

(** A call of [updateSystem] that returns has run no pass at all or the
    whole pass, but for the counter. *)
Lemma returned_cases thNum sched lost s s' :
  updateSystem thNum sched lost s = Returned s' →
  (thNum = 0 ∧ s' = s) ∨
  (1 <= thNum ∧ s' = raced thNum lost (all_updated s)).
Proof.
  intros Hret. destruct (Z.lt_trichotomy thNum 0) as [Hneg|[->|Hpos]].
  - by rewrite updateSystem_negative in Hret.
  - rewrite updateSystem_zero in Hret. left. by injection Hret as <-.
  - right. split; [lia|]. apply updateSystem_returns in Hret as ->; [|lia].
    by rewrite sequential_pass_all.
Qed.

Lemma sys_wf_world s : sys_wf s → world_wf (env s).
Proof. by intros [H _]. Qed.

Lemma all_updated_world_wf s :
  world_wf (env s) → world_wf (env (all_updated s)).
Proof.
  intros Hbs. unfold world_wf, all_updated in *. simpl.
  apply Forall_fmap. eapply list.Forall_impl; [exact Hbs|].
  intros b [Hwf Hsp]. simpl. split.
  - by apply updated_wf.
  - by apply updated_spawned.
Qed.

Lemma updateSystem_world_wf thNum sched lost s s' :
  world_wf (env s) → updateSystem thNum sched lost s = Returned s' →
  world_wf (env s').
Proof.
  intros Hwf Hret.
  destruct (returned_cases _ _ _ _ _ Hret) as [[_ ->]|[_ ->]]; [done|].
  rewrite env_raced. by apply all_updated_world_wf.
Qed.

(** With one worker at most, the counter stays the number of live
    particles. *)
Lemma updateSystem_wf thNum sched lost s s' :
  thNum <= 1 →
  sys_wf s → updateSystem thNum sched lost s = Returned s' → sys_wf s'.
Proof.
  intros H1 Hwf Hret.
  destruct (returned_cases _ _ _ _ _ Hret) as [[_ ->]|[_ ->]]; [done|].
  rewrite raced_single by done. by apply all_updated_wf.
Qed.

Lemma run_ops_world_wf ops : ∀ s s',
  world_wf (env s) → run_ops ops s = Returned s' → world_wf (env s').
Proof.
  induction ops as [|o ops IH]; intros s s' Hwf Hrun; simpl in Hrun.
  - by injection Hrun as <-.
  - destruct o as [pos vel|thNum sched lost]; simpl in Hrun.
    + eapply IH; [|exact Hrun]. by apply spawn_world_wf.
    + destruct (updateSystem thNum sched lost s) as [s1| |] eqn:E; try done.
      eapply IH; [|exact Hrun]. by eapply updateSystem_world_wf.
Qed.

Lemma run_ops_wf ops : ∀ s s',
  Forall unraced ops →
  sys_wf s → run_ops ops s = Returned s' → sys_wf s'.
Proof.
  induction ops as [|o ops IH]; intros s s' Hun Hwf Hrun; simpl in Hrun.
  - by injection Hrun as <-.
  - apply list.Forall_cons in Hun as [Ho Hun].
    destruct o as [pos vel|thNum sched lost]; simpl in Hrun.
    + eapply IH; [done| |exact Hrun]. by apply spawn_wf.
    + destruct (updateSystem thNum sched lost s) as [s1| |] eqn:E; try done.
      eapply IH; [done| |exact Hrun]. by eapply updateSystem_wf.
Qed.

Lemma empty_sys_wf (bnd : Rect T) (gs : list (gField T)) :
  sys_wf (empty_sys bnd gs).
Proof. split; [constructor|done]. Qed.

Lemma count_seq id n :
  length (filter (λ x, x = id) (seq 0 n)) =
    if decide (id < n)%nat then 1%nat else 0%nat.
Proof.
  induction n as [|n IH]; [done|].
  rewrite seq_S, list.filter_app, length_app, IH. simpl.
  rewrite filter_cons.
  destruct (decide (n = id)); repeat case_decide; simpl; lia.
Qed.

Lemma round_robin_fair thNum size : fair thNum size (round_robin thNum size).
Proof.
  intros id Hid. unfold round_robin.
  assert (Hn : ∀ n, length (filter (λ x, x = id)
                   (mjoin (replicate n (seq 0 (Z.to_nat thNum))))) = n).
  { induction n as [|n IH]; [done|]. simpl.
    rewrite list.filter_app, length_app, IH, count_seq.
    rewrite decide_True by lia. done. }
  rewrite Hn. lia.
Qed.

End SystemFacts.

(** ** A worker scheduled alone runs [update] *)

Section WorkerFacts.
Context {T : Type} {ST : Scalar T}.
Implicit Types (s : sys T) (ws : list worker).

Lemma worker_loop_alone thNum n : ∀ j END s signals ws id,
  ws !! id = Some (Looping j END) → Z.to_nat (END - j) = n →
  run_pool thNum (replicate (S n) id) (mkPool ws s signals) =
    Some (mkPool (<[id := Signalled]> ws) (loop_j n j s) (signals + 1)).
Proof.
  induction n as [|n IH]; intros j END s signals ws id Hw Hn.
  - simpl. unfold pool_step. simpl. rewrite Hw. simpl.
    destruct (Z.ltb_spec j END); [lia|done].
  - change (replicate (S (S n)) id) with (id :: replicate (S n) id).
    cbn [run_pool]. unfold pool_step at 1. cbn [workers shared threadSignals].
    rewrite Hw. cbn [worker_step].
    destruct (Z.ltb_spec j END); [|lia].
    rewrite (IH (j + 1) END); [|apply list_lookup_insert_eq;
                                  by eapply lookup_lt_Some|lia].
    by rewrite list_insert_insert_eq.
Qed.

Lemma update_as_schedule thNum id s signals ws START END :
  ws !! id = Some Spawned →
  partition thNum (batch_count s) (Z.of_nat id) = Some (START, END) →
  update thNum (Z.of_nat id) (s, signals) =
    Returned (loop_j (Z.to_nat (END - START)) START s, signals + 1) ∧
  run_pool thNum (replicate (S (S (Z.to_nat (END - START)))) id)
           (mkPool ws s signals) =
    Some (mkPool (<[id := Signalled]> ws)
                 (loop_j (Z.to_nat (END - START)) START s) (signals + 1)).
Proof.
  intros Hw HP. split.
  - unfold update. cbn [fst snd]. by rewrite HP.
  - change (replicate (S (S (Z.to_nat (END - START)))) id)
      with (id :: replicate (S (Z.to_nat (END - START))) id).
    cbn [run_pool]. unfold pool_step at 1. cbn [workers shared threadSignals].
    rewrite Hw. cbn [worker_step]. rewrite HP.
    rewrite (worker_loop_alone _ _ START END); [|apply list_lookup_insert_eq;
                                  by eapply lookup_lt_Some|done].
    by rewrite list_insert_insert_eq.
Qed.

End WorkerFacts.

(** ** The tick driver *)

Section TickFacts.
Context {St : Type} (pass : St → St) (dt : Z) (Hdt : 0 < dt).

Lemma tick_loop_spec fuel : ∀ time s,
  0 <= time → (Z.to_nat (time / dt) < fuel)%nat →
  tick_loop pass dt fuel time s =
    Some (time mod dt, Nat.iter (Z.to_nat (time / dt)) pass s).
Proof.
  induction fuel as [|fuel IH]; intros time s Htime Hfuel; [lia|]. simpl.
  destruct (Z.leb_spec dt time) as [Hge|Hlt].
  - assert (Hq : (time - dt) / dt = time / dt - 1).
    { replace (time - dt) with (time + (-1) * dt) by lia.
      rewrite Z.div_add by lia. lia. }
    assert (Hr : (time - dt) mod dt = time mod dt).
    { replace (time - dt) with (time + (-1) * dt) by lia.
      by rewrite Z.mod_add by lia. }
    assert (Hpos : 1 <= time / dt).
    { apply Z.div_le_lower_bound; lia. }
    rewrite IH, Hq, Hr by lia.
    replace (Z.to_nat (time / dt)) with (S (Z.to_nat (time / dt - 1))) by lia.
    by rewrite Nat.iter_succ_r.
  - rewrite Z.div_small, Z.mod_small by lia. done.
Qed.

Lemma tick_loop_idle fuel time s :
  time < dt → tick_loop pass dt (S fuel) time s = Some (time, s).
Proof. intros H. simpl. by destruct (Z.leb_spec dt time); [lia|]. Qed.

End TickFacts.

(** ** One particle in bounds *)

Section StepFacts.
Context {T : Type} {ST : Scalar T}.


End StepFacts.


(** ** The operations of binary32

    What the scalar interface is on [float]: the four operations of
    [SpecFloat] at precision 24 and exponent bound 128, and the two
    constants as floats. *)









(** ** The live particles along a run *)

Section SequenceFacts.
Context {T : Type} {ST : Scalar T}.
Implicit Types (b : batch T) (s : sys T).

Lemma zip_fmap_same {A B C} (f : A → B) (g : A → C) (l : list A) :
  zip (f <$> l) (g <$> l) = (λ x, (f x, g x)) <$> l.
Proof. induction l as [|x l IH]; simpl; [done|]. f_equal. exact IH. Qed.

Lemma live_lengths b :
  batch_wf b →
  length (live_vertices b) = idx (population b) ∧
  length (live_velocities b) = idx (population b).
Proof.
  intros (Hv & _ & Hw & _ & Hp). unfold live_vertices, live_velocities.
  rewrite !length_take, Hv, Hw. unfold idx, K. lia.
Qed.

Lemma write_slot_live_particles pos vel b :
  batch_wf b → population b < MAX_BATCH_VERTS →
  live_particles (write_slot (population b) pos vel b) =
    live_particles b ++ [(mkVertex pos Yellow vzero, vel)].
Proof.
  intros Hwf Hlt. unfold live_particles.
  destruct (write_slot_live pos vel b Hwf Hlt) as [-> ->].
  destruct (live_lengths b Hwf) as [Hv Hw].
  rewrite zip_with_app by lia. done.
Qed.

Lemma spawn_live_particles pos vel s :
  world_wf (env s) →
  mjoin (live_particles <$> particles (env (spawn pos vel s))) =
    mjoin (live_particles <$> particles (env s))
      ++ [(mkVertex pos Yellow vzero, vel)].
Proof.
  intros Hwf. unfold world_wf in Hwf. unfold spawn.
  assert (E : ∀ x : batch T,
            mjoin (live_particles <$> [x]) = live_particles x)
    by (intros x; apply app_nil_r).
  destruct (spawnParticle_cases pos vel (particles (env s)) (particleCounter s))
    as [(bs' & b & Hbs & Hlt & ->)|[_ ->]]; cbn [env particles].
  - rewrite Hbs in Hwf |- *. apply Forall_app in Hwf as [_ Hb].
    rewrite Forall_singleton in Hb. destruct Hb as [Hb _].
    rewrite !fmap_app, !join_app, !E.
    rewrite (write_slot_live_particles pos vel b Hb Hlt).
    by rewrite app_assoc.
  - rewrite !fmap_app, !join_app, !E.
    change (write_slot 0 pos vel new_batch)
      with (write_slot (population new_batch) pos vel (new_batch (T := T))).
    by rewrite (write_slot_live_particles pos vel new_batch new_batch_wf).
Qed.

(** What a pass leaves in the live slots of a batch: the particles that
    were in bounds, integrated, in their old order and with no slot left
    out. *)
Lemma updated_survivors bnd gs b :
  batch_wf b →
  let survivors := filter (λ r, in_bounds bnd r = true) (live_rows b) in
  population (updated bnd gs b) = Z.of_nat (length survivors) ∧
  live_vertices (updated bnd gs b) =
    map (λ r, row_vertex (integrate_row gs r)) survivors ∧
  live_velocities (updated bnd gs b) =
    map (λ r, row_velocity (integrate_row gs r)) survivors ∧
  live_particles (updated bnd gs b) =
    map (λ r, (row_vertex (integrate_row gs r),
               row_velocity (integrate_row gs r))) survivors.
Proof.
  intros Hwf. cbv zeta. unfold updated.
  destruct (update_batch_spec bnd gs b 0 _ _ Hwf (surjective_pairing _))
    as (Hpop & _ & Hlv & Hlw & _).
  split; [done|]. split; [done|]. split; [done|].
  unfold live_particles. rewrite Hlv, Hlw. apply zip_fmap_same.
Qed.

(** A pass that is run and returns has updated every batch. *)
Lemma pass_particles thNum sched lost s s' :
  thNum ≠ 0 →
  updateSystem thNum sched lost s = Returned s' →
  bounds (env s') = bounds (env s) ∧
  gravFields (env s') = gravFields (env s) ∧
  particles (env s') =
    updated (bounds (env s)) (gravFields (env s)) <$> particles (env s).
Proof.
  intros HT Hret.
  destruct (returned_cases _ _ _ _ _ Hret) as [[? _]|[_ ->]]; [done|].
  by rewrite env_raced.
Qed.

Lemma all_survivors (bnd : Rect T) (gs : list (gField T))
    (bs : list (batch T)) :
  Forall batch_wf bs →
  Forall2 (λ b b',
     let survivors := filter (λ r, in_bounds bnd r = true) (live_rows b) in
     population b' = Z.of_nat (length survivors) ∧
     live_vertices b' = map (λ r, row_vertex (integrate_row gs r)) survivors ∧
     live_velocities b' =
       map (λ r, row_velocity (integrate_row gs r)) survivors ∧
     live_particles b' =
       map (λ r, (row_vertex (integrate_row gs r),
                  row_velocity (integrate_row gs r))) survivors)
    bs (updated bnd gs <$> bs).
Proof.
  intros Hwf. apply Forall2_fmap_r, Forall_Forall2_diag.
  eapply list.Forall_impl; [exact Hwf|].
  intros b Hb. by apply updated_survivors.
Qed.

End SequenceFacts.

(** * Main results *)

(** ** C1: removal of particles out of bounds *)

(** C1, as the program has it.  [update] tests the position a particle has
    at the start of the pass, before this pass integrates it.  For every
    pass over a well-formed batch: the particles whose position at the start
    of the pass lies outside the bounds are absent afterwards, the
    population and the global counter decrease by exactly their number, and
    the particles in bounds keep their relative order - the live vertices
    and velocities after the pass are those of the survivors, integrated,
    in their old order. *)
Theorem out_of_bounds_removal {T : Type} {ST : Scalar T}
    (bnd : Rect T) (gs : list (gField T)) (b b' : batch T) (c c' : Z) :
  batch_wf b →
  update_batch bnd gs (b, c) = (b', c') →
  let survivors := filter (λ r, in_bounds bnd r = true) (live_rows b) in
  let lost := filter (λ r, in_bounds bnd r = false) (live_rows b) in
  population b' = population b - Z.of_nat (length lost) ∧
  c' = c - Z.of_nat (length lost) ∧
  live_vertices b' = map (λ r, row_vertex (integrate_row gs r)) survivors ∧
  live_velocities b' = map (λ r, row_velocity (integrate_row gs r)) survivors.
Proof.
  intros Hwf Hup. cbv zeta.
  destruct (update_batch_spec bnd gs b c b' c' Hwf Hup)
    as (Hpop & Hc & Hlv & Hlw & _).
  assert (Hlen := complement_length (in_bounds bnd) (live_rows b)).
  unfold live_rows in Hlen at 3. rewrite length_rows in Hlen.
  destruct Hwf as (_ & _ & _ & _ & Hp). unfold idx in Hlen.
  repeat split; try done; lia.
Qed.

Lemma out_of_bounds_removal_witness :
  let b := Binary32.first_batch Binary32.two_particles in
  let st' := update_batch Binary32.W_DIM [Binary32.main_field] (b, 2) in
  let survivors :=
    filter (λ r, in_bounds Binary32.W_DIM r = true) (live_rows b) in
  let lost :=
    filter (λ r, in_bounds Binary32.W_DIM r = false) (live_rows b) in
  population (fst st') = population b - Z.of_nat (length lost) ∧
  snd st' = 2 - Z.of_nat (length lost) ∧
  live_vertices (fst st') =
    map (λ r, row_vertex (integrate_row [Binary32.main_field] r)) survivors ∧
  live_velocities (fst st') =
    map (λ r, row_velocity (integrate_row [Binary32.main_field] r)) survivors.
Proof.
  cbv zeta. apply out_of_bounds_removal.
  - repeat split; vm_compute; congruence.
  - apply surjective_pairing.
Defined.

(** C1, as stated, fails: the integrated position of the particle of
    [leaving] is outside the window, yet the pass leaves the particle in
    its batch, at that position, and the population at 1. *)
Lemma integrated_position_outside_stays :
  let b := Binary32.first_batch Binary32.leaving in
  let b' := fst (update_batch Binary32.W_DIM [Binary32.main_field] (b, 1)) in
  let p' := new_position (position (vertices b !!! 0%nat))
                         (velocities b !!! 0%nat) (acceleration b !!! 0%nat) in
  contains Binary32.W_DIM p' = false ∧
  population b = 1 ∧
  ¬ (population b' = population b - 1) ∧
  position <$> live_vertices b' = [p'].
Proof. vm_compute. repeat split; congruence. Qed.

(** ** C2: what a removal does to the columns *)

(** C2 at the batch of [two_particles], whose slot 0 is out of bounds and
    whose slot 1 is in bounds.  The pass removes slot 0, decrements the
    population and the counter, and moves the survivor's vertex and velocity
    down to slot 0; the acceleration column is not moved: slot 0 keeps the
    acceleration of the removed particle, not the one just computed for the
    survivor. *)
Theorem removal_leaves_acceleration_column :
  let gs := [Binary32.main_field] in
  let b := Binary32.first_batch Binary32.two_particles in
  let st' := update_batch Binary32.W_DIM gs (b, 2) in
  let survivor := integrate_row gs (row_at b 1) in
  in_bounds Binary32.W_DIM (row_at b 0) = false ∧
  in_bounds Binary32.W_DIM (row_at b 1) = true ∧
  population b = 2 ∧ population (fst st') = 1 ∧ snd st' = 1 ∧
  vertices (fst st') !!! 0%nat = row_vertex survivor ∧
  velocities (fst st') !!! 0%nat = row_velocity survivor ∧
  acceleration (fst st') !!! 0%nat = acceleration b !!! 0%nat ∧
  acceleration (fst st') !!! 0%nat ≠ row_acceleration survivor.
Proof. vm_compute. repeat split; congruence. Qed.

(** ** C3: what a spawn writes *)

(** C3, in the world of bounds [W_DIM] = (0, 0, 800, 600) with the field
    of intensity 500 at (400, 300) (under the bounds of [main] no
    particle lives to its second pass).  A particle is spawned at
    (799, 300) with velocity (120, 0); the first pass moves it across
    the right edge and computes its acceleration, the second removes it.
    A second particle is then spawned into the slot it left.  That
    particle gets its position and velocity, and the acceleration the
    first one had: [spawnParticle] does not write the acceleration
    column.  The passes run with two workers under the round-robin
    schedule, whatever the race does to the counter. *)
Theorem spawn_keeps_stale_acceleration (lost1 lost2 : Z) :
  ∃ s : sys Binary32.float,
    run_ops [Spawn (Binary32.vec 799 300) (Binary32.vec 120 0);
             Pass 2 Binary32.two_workers lost1;
             Pass 2 Binary32.two_workers lost2;
             Spawn (Binary32.vec 10 10) (Binary32.vec 1 1)]
            (empty_sys Binary32.W_DIM [Binary32.main_field]) = Returned s ∧
    population (Binary32.first_batch s) = 1 ∧
    position (vertices (Binary32.first_batch s) !!! 0%nat)
      = Binary32.vec 10 10 ∧
    velocities (Binary32.first_batch s) !!! 0%nat = Binary32.vec 1 1 ∧
    acceleration (Binary32.first_batch s) !!! 0%nat ≠ vzero.
Proof.
  eexists. split; [vm_compute; reflexivity|].
  vm_compute. repeat split; congruence.
Qed.

(** ** C4: a field on top of a particle *)

(** C4, in the world of bounds [W_DIM] = (0, 0, 800, 600) with the field
    of intensity 500 at (400, 300): a particle at rest is spawned on the
    origin of the field, inside the bounds.  In the pass [r2] is 0 and the
    division is carried out.  After one pass the velocity and the
    acceleration of the particle are NaN, after two passes its position
    is. *)
Theorem singularity_yields_nan :
  let s0 := spawn (Binary32.vec 400 300) (Binary32.vec 0 0)
                  (empty_sys Binary32.W_DIM [Binary32.main_field]) in
  let b1 := Binary32.first_batch (sequential_pass s0) in
  let b2 := Binary32.first_batch (sequential_pass (sequential_pass s0)) in
  contains Binary32.W_DIM (Binary32.vec 400 300) = true ∧
  population b1 = 1 ∧
  Binary32.is_nan (vx (velocities b1 !!! 0%nat)) = true ∧
  Binary32.is_nan (vy (velocities b1 !!! 0%nat)) = true ∧
  Binary32.is_nan (vx (acceleration b1 !!! 0%nat)) = true ∧
  Binary32.is_nan (vy (acceleration b1 !!! 0%nat)) = true ∧
  population b2 = 1 ∧
  Binary32.is_nan (vx (position (vertices b2 !!! 0%nat))) = true ∧
  Binary32.is_nan (vy (position (vertices b2 !!! 0%nat))) = true.
Proof. vm_compute. repeat split. Qed.

(** ** C5: the step of a particle in bounds *)




(** On binary32 the force of the field of intensity 500 at [(0, 0)] on a
    particle at [(2, 0)] is [(-250, 0)] exactly. *)
Example binary32_force_law :
  totalGForce [mkField (Binary32.vec 0 0) (Binary32.of_Z 500)]
              (Binary32.vec 2 0)
  = Binary32.vec (-250) 0.
Proof. vm_compute. reflexivity. Qed.

(** ** C6: the partition and the barrier *)

(** C6.  For [thNum >= 1] workers and [M] batches the ranges computed by
    [update] lie in [0, M], have [M / thNum] batches each but for the last,
    which ends at [M]; each range starts where the one before ends, no batch
    is in two ranges and every batch is in one.  Whatever the schedule of
    the workers and whatever the race does to the counter, when
    [updateSystem] returns the world is that of the single-threaded pass
    over all the batches: bounds and fields are as before, and every batch
    has had the whole inner loop of [update] run on it, so that a
    well-formed batch holds in its live slots the particles that were in
    bounds, integrated, in their old order.  With a single worker the
    counter too is that of the single-threaded pass.  The call never
    divides by zero, and under a fair schedule it returns. *)
Theorem partition_and_barrier {T : Type} {ST : Scalar T}
    (thNum M : Z) (s : sys T) (sched : list nat) (lost : Z) :
  1 <= thNum → 0 <= M →
  (∀ id, 0 <= id < thNum →
     ∃ a b, partition thNum M id = Some (a, b) ∧
       0 <= a <= b ∧ b <= M ∧
       (id < thNum - 1 → b - a = M / thNum) ∧
       (id = 0 → a = 0) ∧ (id = thNum - 1 → b = M) ∧
       (id < thNum - 1 → ∃ b', partition thNum M (id + 1) = Some (b, b'))) ∧
  (∀ id id' a b a' b' j,
     0 <= id < thNum → 0 <= id' < thNum → id ≠ id' →
     partition thNum M id = Some (a, b) →
     partition thNum M id' = Some (a', b') →
     ¬ (a <= j < b ∧ a' <= j < b')) ∧
  (∀ j, 0 <= j < M →
     ∃ id a b, 0 <= id < thNum ∧
       partition thNum M id = Some (a, b) ∧ a <= j < b) ∧
  (∀ s', updateSystem thNum sched lost s = Returned s' →
     env s' = env (sequential_pass s) ∧
     bounds (env s') = bounds (env s) ∧
     gravFields (env s') = gravFields (env s) ∧
     particles (env s') =
       (λ b, fst (update_batch (bounds (env s)) (gravFields (env s)) (b, 0)))
         <$> particles (env s) ∧
     (Forall batch_wf (particles (env s)) →
      Forall2 (λ b b',
         let survivors :=
           filter (λ r, in_bounds (bounds (env s)) r = true) (live_rows b) in
         population b' = Z.of_nat (length survivors) ∧
         live_vertices b' =
           map (λ r, row_vertex (integrate_row (gravFields (env s)) r))
               survivors ∧
         live_velocities b' =
           map (λ r, row_velocity (integrate_row (gravFields (env s)) r))
               survivors)
        (particles (env s)) (particles (env s'))) ∧
     (thNum = 1 → s' = sequential_pass s)) ∧
  updateSystem thNum sched lost s ≠ Undefined ∧
  (fair thNum (batch_count s) sched →
   ∃ s', updateSystem thNum sched lost s = Returned s').
Proof.
  intros HT HM. split; [|split; [|split; [|split; [|split]]]].
  - intros id Hid.
    destruct (partition thNum M id) as [[a b]|] eqn:E;
      [|by rewrite partition_nonzero in E by lia].
    exists a, b. split; [done|].
    destruct (partition_bounds thNum M id a b HT HM Hid E)
      as (? & ? & ? & ? & ?).
    repeat split; try done; try lia.
    intros Hlt.
    destruct (partition thNum M (id + 1)) as [[a' b']|] eqn:E';
      [|by rewrite partition_nonzero in E' by lia].
    exists b'. f_equal. f_equal.
    symmetry. eapply partition_contiguous; try done. lia.
  - intros id id' a b a' b' j Hid Hid' Hne E E' [H1 H2].
    by eapply (partition_disjoint thNum M id id').
  - intros j Hj. by apply partition_cover.
  - intros s' Hret.
    destruct (pass_particles thNum sched lost s s' ltac:(lia) Hret)
      as (Hb & Hg & Hp).
    split; [|split; [done|split; [done|split; [done|split]]]].
    + apply updateSystem_returns in Hret as ->; [|done].
      by rewrite env_raced.
    + intros Hwf. rewrite Hp.
      eapply list.Forall2_impl;
        [exact (all_survivors (bounds (env s)) (gravFields (env s)) _ Hwf)|].
      cbv zeta. intros b b' (? & ? & ? & _). done.
    + intros ->. apply updateSystem_returns in Hret as ->; [|done].
      by rewrite raced_single.
  - by apply updateSystem_defined.
  - intros Hfair. eexists. by apply updateSystem_fair.
Qed.

Lemma partition_and_barrier_witness :
  partition 2 5 0 = Some (0, 2) ∧ partition 2 5 1 = Some (2, 5) ∧
  ∃ s', updateSystem 2 Binary32.two_workers 1 Binary32.two_particles =
          Returned s' ∧
        env s' = env (sequential_pass Binary32.two_particles).
Proof.
  split; [done|]. split; [done|].
  destruct (partition_and_barrier 2 5 Binary32.two_particles
              Binary32.two_workers 1 ltac:(lia) ltac:(lia))
    as (_ & _ & _ & Hret & _ & Hfair).
  destruct (Hfair (round_robin_fair 2 1)) as [s' Hs'].
  exists s'. split; [done|]. by apply Hret.
Defined.

(** ** C7: spawn overflow *)

(** C7.  [MAX_BATCH_VERTS + 1] calls of [spawnParticle], whatever the
    positions and velocities, starting with no batch: two batches, of
    populations [MAX_BATCH_VERTS] and 1. *)
Theorem spawn_overflow {T : Type} {ST : Scalar T}
    (pvs : list (Vector2 T * Vector2 T)) :
  Z.of_nat (length pvs) = MAX_BATCH_VERTS + 1 →
  population <$> fst (spawn_all pvs ([], 0)) = [MAX_BATCH_VERTS; 1].
Proof.
  intros Hlen. rewrite spawn_all_populations.
  replace (length pvs) with 1001%nat by (unfold MAX_BATCH_VERTS in Hlen; lia).
  vm_compute. reflexivity.
Qed.

Lemma spawn_overflow_witness :
  population <$>
    fst (spawn_all (replicate 1001 (Binary32.vec 10 10, Binary32.vec 1 1))
                   ([], 0))
  = [MAX_BATCH_VERTS; 1].
Proof. apply spawn_overflow. vm_compute. reflexivity. Defined.

(** ** C8: the population invariant *)

(** C8.  Let [s] be a state reached from the empty world by any sequence
    of spawns and passes, with any numbers of workers, any schedules and
    whatever the races do to the counter.  Every batch of [s] has its
    [MAX_BATCH_VERTS] slots and a population between 0 and
    [MAX_BATCH_VERTS], and the slots [0 .. population) all hold particles
    written by [spawnParticle].  The live particles are exactly the ones in
    these slots, and stay so under one more operation: a spawn puts the new
    particle in the slot after the live ones of the last batch, so that the
    live particles of the world are the old ones followed by the new one; a
    pass that is run leaves in the slots [0 .. population') of each batch
    exactly the particles that were live and in bounds, integrated, in
    their old order, none left out and none kept twice. *)
Theorem population_invariant {T : Type} {ST : Scalar T}
    (bnd : Rect T) (gs : list (gField T)) (ops : list op) (s : sys T)
    (o : op) (s' : sys T) :
  run_ops ops (empty_sys bnd gs) = Returned s →
  apply_op o s = Returned s' →
  (∀ b, b ∈ particles (env s) →
    batch_wf b ∧
    0 <= population b <= MAX_BATCH_VERTS ∧
    length (live_vertices b) = idx (population b) ∧
    length (live_velocities b) = idx (population b) ∧
    Forall (λ v, color v = Yellow) (live_vertices b)) ∧
  match o with
  | Spawn pos vel =>
      mjoin (live_particles <$> particles (env s')) =
        mjoin (live_particles <$> particles (env s))
          ++ [(mkVertex pos Yellow vzero, vel)]
  | Pass thNum _ _ =>
      thNum ≠ 0 →
      Forall2 (λ b b',
         let survivors :=
           filter (λ r, in_bounds (bounds (env s)) r = true) (live_rows b) in
         population b' = Z.of_nat (length survivors) ∧
         live_vertices b' =
           map (λ r, row_vertex (integrate_row (gravFields (env s)) r))
               survivors ∧
         live_velocities b' =
           map (λ r, row_velocity (integrate_row (gravFields (env s)) r))
               survivors ∧
         live_particles b' =
           map (λ r, (row_vertex (integrate_row (gravFields (env s)) r),
                      row_velocity (integrate_row (gravFields (env s)) r)))
               survivors)
        (particles (env s)) (particles (env s'))
  end.
Proof.
  intros Hrun Hop.
  assert (Hwf : world_wf (env s)).
  { eapply run_ops_world_wf; [|exact Hrun]. constructor. }
  split.
  - intros b Hb. unfold world_wf in Hwf.
    rewrite list.Forall_forall in Hwf.
    destruct (Hwf b Hb) as [Hbwf Hsp].
    destruct (live_lengths b Hbwf) as [Hlv Hlw].
    by destruct Hbwf as (? & ? & ? & ? & ?).
  - destruct o as [pos vel|thNum sched lost]; cbn [apply_op] in Hop.
    + injection Hop as <-. by apply spawn_live_particles.
    + intros HT.
      destruct (pass_particles thNum sched lost s s' HT Hop) as (_ & _ & ->).
      apply all_survivors. eapply list.Forall_impl; [exact Hwf|].
      by intros b [? _].
Qed.

Lemma population_invariant_witness :
  let s := spawn (Binary32.vec 100 300) (Binary32.vec 0 0)
             (spawn (Binary32.vec (-5) 300) (Binary32.vec 0 0)
                (empty_sys Binary32.W_DIM [Binary32.main_field])) in
  let s' := raced 2 1 (sequential_pass s) in
  Forall2 (λ b b',
     let survivors :=
       filter (λ r, in_bounds (bounds (env s)) r = true) (live_rows b) in
     population b' = Z.of_nat (length survivors) ∧
     live_vertices b' =
       map (λ r, row_vertex (integrate_row (gravFields (env s)) r))
           survivors ∧
     live_velocities b' =
       map (λ r, row_velocity (integrate_row (gravFields (env s)) r))
           survivors ∧
     live_particles b' =
       map (λ r, (row_vertex (integrate_row (gravFields (env s)) r),
                  row_velocity (integrate_row (gravFields (env s)) r)))
           survivors)
    (particles (env s)) (particles (env s')).
Proof.
  cbv zeta.
  refine (proj2 (population_invariant Binary32.W_DIM [Binary32.main_field]
           [Spawn (Binary32.vec (-5) 300) (Binary32.vec 0 0);
            Spawn (Binary32.vec 100 300) (Binary32.vec 0 0)]
           (spawn (Binary32.vec 100 300) (Binary32.vec 0 0)
             (spawn (Binary32.vec (-5) 300) (Binary32.vec 0 0)
                (empty_sys Binary32.W_DIM [Binary32.main_field])))
           (Pass 2 Binary32.two_workers 1)
           (raced 2 1 (sequential_pass
             (spawn (Binary32.vec 100 300) (Binary32.vec 0 0)
               (spawn (Binary32.vec (-5) 300) (Binary32.vec 0 0)
                  (empty_sys Binary32.W_DIM [Binary32.main_field])))))
           eq_refl _) _).
  - apply (updateSystem_fair 2 _ ltac:(lia) Binary32.two_workers 1).
    apply round_robin_fair.
  - lia.
Defined.

(** ** C9: the tick driver *)

(** C9.  A frame adds the elapsed time to the accumulator and then runs
    one pass and subtracts [dt] as long as the accumulator holds at least
    [dt]: [(acc + elapsed) / dt] passes in all, [(acc + elapsed) mod dt]
    left.  With an empty accumulator and a frame of [2.5 * dt] - five halves
    of [dt] - exactly two passes run and half of [dt] is left. *)
Theorem tick_accumulation {St : Type} (pass : St → St) (dt half_dt : Z)
    (fuel : nat) (acc elapsed : Z) (s : St) :
  0 < dt → dt = 2 * half_dt →
  0 <= acc + elapsed → (Z.to_nat ((acc + elapsed) / dt) < fuel)%nat →
  frame pass dt fuel elapsed (acc, s) =
    Some ((acc + elapsed) mod dt,
          Nat.iter (Z.to_nat ((acc + elapsed) / dt)) pass s) ∧
  frame pass dt 3 (5 * half_dt) (0, s) = Some (half_dt, pass (pass s)).
Proof.
  intros Hdt Hhalf Hacc Hfuel. unfold frame. cbn [fst snd]. split.
  - by apply tick_loop_spec.
  - rewrite tick_loop_spec; [|lia|lia|].
    + replace (0 + 5 * half_dt) with (half_dt + 2 * dt) by lia.
      rewrite Z.div_add, Z.mod_add, Z.div_small, Z.mod_small by lia. done.
    + replace (0 + 5 * half_dt) with (half_dt + 2 * dt) by lia.
      rewrite Z.div_add, Z.div_small by lia. simpl. lia.
Qed.

Lemma tick_accumulation_witness :
  frame (λ n : nat, S n) Binary32.dt 10 40000 (5000, 0%nat)
    = Some (45000 mod Binary32.dt,
            Nat.iter (Z.to_nat (45000 / Binary32.dt)) (λ n : nat, S n) 0%nat) ∧
  frame (λ n : nat, S n) Binary32.dt 3 (5 * 8333) (0, 0%nat)
    = Some (8333, 2%nat).
Proof.
  apply (tick_accumulation (λ n : nat, S n) Binary32.dt 8333 10 5000 40000 0%nat);
    vm_compute; (reflexivity || congruence || lia).
Defined.

(** ** C10: no worker *)

(** C10 at [leaving]: with [hardware_concurrency() = 0], [updateSystem]
    starts no worker and returns at once with the state unchanged, whatever
    the schedule; the sequential pass would have moved the particle.  A call
    of [update] itself would divide by zero. *)
Theorem zero_workers_no_pass (sched : list nat) (lost : Z) :
  updateSystem 0 sched lost Binary32.leaving = Returned Binary32.leaving ∧
  sequential_pass Binary32.leaving ≠ Binary32.leaving ∧
  update 0 0 (Binary32.leaving, 0) = Undefined.
Proof.
  split; [apply updateSystem_zero|]. split; [|done].
  intros H.
  apply (f_equal (λ s, position (vertices (Binary32.first_batch s) !!! 0%nat)))
    in H.
  vm_compute in H. congruence.
Qed.

(** * Further properties *)

(** ** The acceleration column *)

Section AccelerationFacts.
Context {T : Type} {ST : Scalar T}.
Implicit Types (b : batch T) (c : Z) (n k : nat).

Lemma remove_wf i b c :
  batch_wf b → 0 <= i < population b → batch_wf (fst (remove i (b, c))).
Proof.
  intros (Hv & Ho & Hw & Ha & Hp) Hi. unfold remove. cbn [fst snd].
  set (b1 := mkBatch _ _ _ _ _). set (n := Z.to_nat _).
  assert (Hn : n = (idx (population b) - 1 - idx i)%nat)
    by (unfold n, b1, idx; simpl; lia).
  assert (HK : (idx (population b) <= K)%nat) by (unfold idx, K; lia).
  assert (Hvs := shift_vertices n i b1 ltac:(lia)).
  assert (Hws := shift_velocities n i b1 ltac:(lia)).
  simpl in Hvs, Hws. unfold idx in *.
  specialize (Hvs ltac:(lia)). specialize (Hws ltac:(lia)).
  unfold batch_wf.
  rewrite shift_population, shift_acceleration, shift_oldPositions, Hvs, Hws.
  rewrite !length_app, !length_take, !length_drop. simpl.
  repeat split; lia.
Qed.

Lemma integrate_wf gs n b :
  batch_wf b → batch_wf (integrate gs (Z.of_nat n) b).
Proof.
  intros (Hv & Ho & Hw & Ha & Hp). unfold batch_wf, integrate. simpl.
  rewrite !length_insert. repeat split; try done; lia.
Qed.

Lemma scan_acceleration bnd gs n : ∀ b c k,
  batch_wf b → (n <= idx (population b))%nat →
  acceleration (fst (scan bnd gs n (b, c))) !!! k =
    if decide (k < n)%nat
    then if in_bounds bnd (row_at b k)
         then row_acceleration (integrate_row gs (row_at b k))
         else acceleration b !!! k
    else acceleration b !!! k.
Proof.
  induction n as [|n IH]; intros b c k Hwf Hn;
    [rewrite decide_False by lia; reflexivity|].
  cbn [scan].
  pose proof Hwf as (Hv & Ho & Hw & Ha & Hp).
  assert (HK : (n < K)%nat) by (unfold idx, K in *; lia).
  destruct (in_bounds bnd (row_at b n)) eqn:Hin.
  - rewrite update_particle_in by done.
    rewrite IH; [|by apply integrate_wf|simpl; lia].
    destruct (decide (k < n)%nat) as [Hlt|Hge].
    + rewrite decide_True by lia.
      rewrite row_at_integrate by lia.
      unfold integrate. cbn [acceleration]. rewrite idx_of_nat.
      by rewrite list_lookup_total_insert_ne by lia.
    + destruct (decide (k = n)) as [->|Hne].
      * rewrite decide_True by lia. rewrite Hin.
        assert (Hr := row_at_integrate_eq gs n b ltac:(lia) ltac:(lia) ltac:(lia)).
        rewrite <- Hr. done.
      * rewrite decide_False by lia.
        unfold integrate. cbn [acceleration]. rewrite idx_of_nat.
        by rewrite list_lookup_total_insert_ne by lia.
  - rewrite update_particle_out by done.
    assert (Hi : 0 <= Z.of_nat n < population b) by (unfold idx in *; lia).
    destruct (remove_spec (Z.of_nat n) b c Hwf Hi)
      as (Hpop & _ & Hlow & _ & Hacc & _).
    rewrite idx_of_nat in Hlow.
    destruct (remove (Z.of_nat n) (b, c)) as [b1 c1] eqn:E.
    cbn [fst] in *.
    assert (Hwf1 : batch_wf b1).
    { change b1 with (fst (b1, c1)). rewrite <- E. by apply remove_wf. }
    rewrite IH; [|done|unfold idx in *; lia].
    rewrite Hacc.
    destruct (decide (k < n)%nat) as [Hlt|Hge].
    + rewrite decide_True by lia.
      assert (Hrow : row_at b1 k = row_at b k).
      { unfold row_at. destruct (Hlow k Hlt) as [-> ->]. by rewrite Hacc. }
      by rewrite Hrow.
    + destruct (decide (k = n)) as [->|Hne].
      * rewrite decide_True by lia. by rewrite Hin.
      * by rewrite decide_False by lia.
Qed.

End AccelerationFacts.

Section PassFacts2.
Context {T : Type} {ST : Scalar T}.
Implicit Types (b : batch T) (c : Z) (n k : nat).

Lemma rows_lookup_total n b k :
  (k < n)%nat → rows n b !!! k = row_at b k.
Proof.
  intros Hk. unfold rows. apply list_lookup_total_correct.
  by rewrite list_lookup_fmap, lookup_seq_lt by done.
Qed.

Lemma filter_all_true {A} (P : A → bool) (l : list A) :
  Forall (λ x, P x = true) l → filter (λ x, P x = true) l = l.
Proof.
  induction 1 as [|x l Hx Hl IH]; [done|].
  by rewrite filter_cons_True, IH by done.
Qed.

Lemma scan_oldPositions bnd gs n : ∀ b c,
  oldPositions (fst (scan bnd gs n (b, c))) = oldPositions b.
Proof.
  induction n as [|n IH]; intros b c; [done|]. cbn [scan].
  destruct (update_particle bnd gs (Z.of_nat n) (b, c)) as [b1 c1] eqn:E.
  rewrite IH. unfold update_particle in E. cbn [fst snd] in E.
  destruct (contains _ _).
  - by injection E as <- _.
  - unfold remove in E. injection E as <- _. by rewrite shift_oldPositions.
Qed.

End PassFacts2.

(** ** One batch, one pass *)

(** X1.  The [else] branch on a live slot [i] of a well-formed batch:
    population and counter go down by one, the vertices and velocities of
    the slots above [i] move down by one slot, the slots below [i] keep
    theirs, and the acceleration and [oldPositions] columns are not
    touched. *)
Theorem removal_shifts_vertices_and_velocities {T : Type} {ST : Scalar T}
    (i : Z) (b : batch T) (c : Z) :
  batch_wf b → 0 <= i < population b →
  let b' := fst (remove i (b, c)) in
  population b' = population b - 1 ∧
  snd (remove i (b, c)) = c - 1 ∧
  (∀ k, (k < idx i)%nat →
     vertices b' !!! k = vertices b !!! k ∧
     velocities b' !!! k = velocities b !!! k) ∧
  (∀ k, (idx i <= k < idx (population b) - 1)%nat →
     vertices b' !!! k = vertices b !!! S k ∧
     velocities b' !!! k = velocities b !!! S k) ∧
  acceleration b' = acceleration b ∧
  oldPositions b' = oldPositions b ∧
  batch_wf b'.
Proof.
  intros Hwf Hi. cbv zeta.
  destruct (remove_spec i b c Hwf Hi) as (? & ? & ? & ? & ? & ?).
  do 6 (split; [done|]). by apply remove_wf.
Qed.

Lemma removal_shifts_vertices_and_velocities_witness :
  let b := Binary32.first_batch Binary32.two_particles in
  population (fst (remove 0 (b, 2))) = 1 ∧
  vertices (fst (remove 0 (b, 2))) !!! 0%nat = vertices b !!! 1%nat ∧
  acceleration (fst (remove 0 (b, 2))) = acceleration b.
Proof.
  cbv zeta.
  destruct (removal_shifts_vertices_and_velocities 0
              (Binary32.first_batch Binary32.two_particles) 2)
    as (Hp & _ & _ & Hup & Hacc & _).
  - repeat split; vm_compute; congruence.
  - vm_compute. split; congruence.
  - split; [exact Hp|]. split; [|exact Hacc].
    apply (Hup 0%nat). vm_compute. split; constructor.
Defined.

(** X2.  After a pass over a well-formed batch the acceleration column
    holds, in every slot that was live and in bounds at the start of the
    pass, the force computed for the particle that was in that slot at the
    start; every other slot keeps its value.  The column is written by the
    slot index a particle had at the start of the pass and is never moved
    by a removal. *)
Theorem acceleration_written_in_place {T : Type} {ST : Scalar T}
    (bnd : Rect T) (gs : list (gField T)) (b : batch T) (c : Z) (k : nat) :
  batch_wf b →
  acceleration (fst (update_batch bnd gs (b, c))) !!! k =
    if decide (k < idx (population b))%nat
    then if in_bounds bnd (row_at b k)
         then row_acceleration (integrate_row gs (row_at b k))
         else acceleration b !!! k
    else acceleration b !!! k.
Proof.
  intros Hwf. unfold update_batch. cbn [fst].
  by apply scan_acceleration.
Qed.

Lemma acceleration_written_in_place_witness :
  let b := Binary32.first_batch Binary32.two_particles in
  acceleration
    (fst (update_batch Binary32.W_DIM [Binary32.main_field] (b, 2))) !!! 1%nat
  = row_acceleration (integrate_row [Binary32.main_field] (row_at b 1)).
Proof.
  cbv zeta.
  rewrite (acceleration_written_in_place Binary32.W_DIM [Binary32.main_field]
             (Binary32.first_batch Binary32.two_particles) 2 1).
  - vm_compute. reflexivity.
  - repeat split; vm_compute; congruence.
Defined.

(** X3.  A pass over a well-formed batch all of whose live particles are in
    bounds at the start removes nothing: population and counter are
    unchanged and every live row - vertex, velocity and acceleration - is
    the integrated row of the same slot. *)
Theorem pass_without_removal {T : Type} {ST : Scalar T}
    (bnd : Rect T) (gs : list (gField T)) (b b' : batch T) (c c' : Z) :
  batch_wf b →
  Forall (λ r, in_bounds bnd r = true) (live_rows b) →
  update_batch bnd gs (b, c) = (b', c') →
  population b' = population b ∧ c' = c ∧
  live_rows b' = map (integrate_row gs) (live_rows b).
Proof.
  intros Hwf Hall Hup.
  assert (Hacc := λ k, scan_acceleration bnd gs (idx (population b)) b c k
                         Hwf (Nat.le_refl _)).
  change (scan bnd gs (idx (population b)) (b, c))
    with (update_batch bnd gs (b, c)) in Hacc.
  rewrite Hup in Hacc. cbn [fst] in Hacc.
  destruct (update_batch_spec bnd gs b c b' c' Hwf Hup)
    as (Hpop & Hc & Hlv & Hlw & Hwf').
  rewrite (filter_all_true (in_bounds bnd)) in Hpop, Hlv, Hlw by done.
  pose proof Hwf as (Hv & _ & Hw & _ & Hp).
  assert (Hpop' : population b' = population b).
  { rewrite Hpop. unfold live_rows. rewrite length_rows. unfold idx. lia. }
  split; [done|]. split; [lia|].
  unfold live_rows at 1. rewrite Hpop'. unfold rows at 1.
  unfold live_rows at 1. unfold rows at 1. rewrite map_map.
  apply map_ext_in. intros k Hk. apply in_seq in Hk.
  assert (Hk' : (k < idx (population b))%nat) by lia.
  assert (Hin : in_bounds bnd (row_at b k) = true).
  { rewrite list.Forall_forall in Hall. apply Hall.
    apply list_elem_of_lookup. exists k. unfold live_rows, rows.
    rewrite list_lookup_fmap, lookup_seq_lt by done. done. }
  unfold live_vertices, live_velocities in Hlv, Hlw. rewrite Hpop' in Hlv, Hlw.
  unfold row_at at 1.
  rewrite <- (lookup_total_take_lt (vertices b') (idx (population b)) k) by done.
  rewrite <- (lookup_total_take_lt (velocities b') (idx (population b)) k) by done.
  rewrite Hlv, Hlw, Hacc, decide_True, Hin by done.
  assert (Hrow : live_rows b !! k = Some (row_at b k)).
  { unfold live_rows, rows. by rewrite list_lookup_fmap, lookup_seq_lt by done. }
  rewrite (list_lookup_total_correct _ k (row_vertex (integrate_row gs (row_at b k))))
    by (by rewrite list_lookup_fmap, Hrow).
  rewrite (list_lookup_total_correct _ k (row_velocity (integrate_row gs (row_at b k))))
    by (by rewrite list_lookup_fmap, Hrow).
  by destruct (integrate_row gs (row_at b k)) as [[??]?].
Qed.

Lemma pass_without_removal_witness :
  let b := Binary32.first_batch Binary32.leaving in
  let st' := update_batch Binary32.W_DIM [Binary32.main_field] (b, 1) in
  population (fst st') = population b ∧ snd st' = 1 ∧
  live_rows (fst st') = map (integrate_row [Binary32.main_field]) (live_rows b).
Proof.
  cbv zeta.
  assert (Hwf : batch_wf (Binary32.first_batch Binary32.leaving))
    by (repeat split; vm_compute; congruence).
  assert (Hall : Forall (λ r, in_bounds Binary32.W_DIM r = true)
                   (live_rows (Binary32.first_batch Binary32.leaving))).
  { change (live_rows (Binary32.first_batch Binary32.leaving))
      with [row_at (Binary32.first_batch Binary32.leaving) 0].
    constructor; [vm_compute; reflexivity|constructor]. }
  exact (pass_without_removal Binary32.W_DIM [Binary32.main_field]
           (Binary32.first_batch Binary32.leaving)
           (fst (update_batch Binary32.W_DIM [Binary32.main_field]
                   (Binary32.first_batch Binary32.leaving, 1)))
           1
           (snd (update_batch Binary32.W_DIM [Binary32.main_field]
                   (Binary32.first_batch Binary32.leaving, 1)))
           Hwf Hall (surjective_pairing _)).
Defined.

(** ** Spawning and drawing *)

Section DrawFacts.
Context {T : Type} {ST : Scalar T}.
Implicit Types (b : batch T) (bs : list (batch T)) (s : sys T).

Lemma length_live_vertices b :
  batch_wf b → Z.of_nat (length (live_vertices b)) = population b.
Proof.
  intros (Hv & _ & _ & _ & Hp). unfold live_vertices.
  rewrite length_take, Hv. unfold idx, K. lia.
Qed.

Lemma length_drawn_batches bs :
  Forall batch_wf bs →
  Z.of_nat (length (mjoin (live_vertices <$> bs))) = total_population bs.
Proof.
  induction 1 as [|b bs Hb Hbs IH]; [done|].
  assert (E : mjoin (live_vertices <$> b :: bs) =
              live_vertices b ++ mjoin (live_vertices <$> bs)) by done.
  rewrite E, length_app, Nat2Z.inj_add, IH, length_live_vertices by done.
  done.
Qed.

Lemma spawnParticle_drawn pos vel bs c :
  Forall batch_wf bs →
  mjoin (live_vertices <$> fst (spawnParticle pos vel (bs, c))) =
    mjoin (live_vertices <$> bs) ++ [mkVertex pos Yellow vzero].
Proof.
  intros Hwf.
  destruct (spawnParticle_cases pos vel bs c)
    as [(bs' & b & -> & Hlt & ->)|[_ ->]]; cbn [fst].
  - apply Forall_app in Hwf as [_ Hb]. rewrite Forall_singleton in Hb.
    rewrite !fmap_app, !join_app.
    assert (E : ∀ x : batch T, mjoin (live_vertices <$> [x]) = live_vertices x)
      by (intros x; apply app_nil_r).
    rewrite !E.
    destruct (write_slot_live pos vel b Hb Hlt) as [-> _].
    by rewrite app_assoc.
  - rewrite !fmap_app, !join_app.
    assert (E : ∀ x : batch T, mjoin (live_vertices <$> [x]) = live_vertices x)
      by (intros x; apply app_nil_r).
    rewrite !E.
    change (write_slot 0 pos vel new_batch)
      with (write_slot (population new_batch) pos vel (new_batch (T := T))).
    destruct (write_slot_live pos vel new_batch new_batch_wf) as [-> _];
      [done|].
    done.
Qed.

Lemma spawn_click_snoc pos vels vel s :
  click pos (vels ++ [vel]) s = spawn pos vel (click pos vels s).
Proof. unfold click. by rewrite foldl_snoc. Qed.

Lemma spawn_counter pos vel s :
  particleCounter (spawn pos vel s) = particleCounter s + 1.
Proof.
  unfold spawn.
  assert (H := spawnParticle_counter pos vel (particles (env s))
                 (particleCounter s)).
  by destruct (spawnParticle _ _ _).
Qed.

Lemma spawn_particles pos vel s :
  particles (env (spawn pos vel s)) =
    fst (spawnParticle pos vel (particles (env s), particleCounter s)).
Proof. unfold spawn. by destruct (spawnParticle _ _ _). Qed.

Lemma spawn_drawn pos vel s :
  sys_wf s →
  drawn (spawn pos vel s) = drawn s ++ [mkVertex pos Yellow vzero].
Proof.
  intros [Hbs _]. unfold drawn. rewrite spawn_particles.
  apply spawnParticle_drawn.
  eapply list.Forall_impl; [exact Hbs|]. by intros b [? _].
Qed.

Lemma spawn_batch_count pos vel s :
  batch_count s <= batch_count (spawn pos vel s) <= batch_count s + 1.
Proof.
  unfold batch_count. rewrite spawn_particles.
  destruct (spawnParticle_cases pos vel (particles (env s)) (particleCounter s))
    as [(bs' & b & -> & Hlt & ->)|[_ ->]]; cbn [fst];
    rewrite !length_app; simpl; lia.
Qed.

End DrawFacts.

(** X4.  In a world of well-formed batches [spawnParticle] touches the last
    batch only, or appends one batch and touches that: the slot it writes is
    inside the arrays, the batch written has the position and the velocity
    in that slot, one particle more, and the acceleration column it had (that
    of a new batch when one is appended); the counter goes up by one. *)
Theorem spawn_writes_only_the_last_batch {T : Type} {ST : Scalar T}
    (pos vel : Vector2 T) (bs : list (batch T)) (c : Z) :
  Forall batch_wf bs →
  ∃ bs' b b', fst (spawnParticle pos vel (bs, c)) = bs' ++ [b'] ∧
    (bs = bs' ++ [b] ∨ (bs = bs' ∧ b = new_batch)) ∧
    0 <= population b < MAX_BATCH_VERTS ∧
    position (vertices b' !!! idx (population b)) = pos ∧
    velocities b' !!! idx (population b) = vel ∧
    acceleration b' = acceleration b ∧
    population b' = population b + 1 ∧
    snd (spawnParticle pos vel (bs, c)) = c + 1.
Proof. apply spawnParticle_spec. Qed.

Lemma spawn_writes_only_the_last_batch_witness :
  ∃ bs' b b',
    fst (spawnParticle (Binary32.vec 10 10) (Binary32.vec 1 1)
           (particles (env Binary32.two_particles), 2)) = bs' ++ [b'] ∧
    (particles (env Binary32.two_particles) = bs' ++ [b] ∨
     (particles (env Binary32.two_particles) = bs' ∧ b = new_batch)) ∧
    0 <= population b < MAX_BATCH_VERTS ∧
    position (vertices b' !!! idx (population b)) = Binary32.vec 10 10 ∧
    velocities b' !!! idx (population b) = Binary32.vec 1 1 ∧
    acceleration b' = acceleration b ∧
    population b' = population b + 1 ∧
    snd (spawnParticle (Binary32.vec 10 10) (Binary32.vec 1 1)
           (particles (env Binary32.two_particles), 2)) = 2 + 1.
Proof.
  apply spawn_writes_only_the_last_batch.
  repeat constructor; vm_compute; congruence.
Defined.

(** X5.  In a state that satisfies the invariant, a spawn adds exactly one
    point to what the frame draws, after all the others: the yellow vertex
    at the given position. *)
Theorem spawn_draws_one_more {T : Type} {ST : Scalar T}
    (pos vel : Vector2 T) (s : sys T) :
  sys_wf s →
  drawn (spawn pos vel s) = drawn s ++ [mkVertex pos Yellow vzero].
Proof. apply spawn_drawn. Qed.

Lemma spawn_draws_one_more_witness :
  drawn (spawn (Binary32.vec 10 10) (Binary32.vec 1 1) Binary32.two_particles)
  = drawn Binary32.two_particles
      ++ [mkVertex (Binary32.vec 10 10) Yellow vzero].
Proof.
  apply spawn_draws_one_more.
  apply (run_ops_wf [Spawn (Binary32.vec (-5) 300) (Binary32.vec 0 0);
                     Spawn (Binary32.vec 100 300) (Binary32.vec 0 0)]
           Binary32.initial).
  - by repeat constructor.
  - apply empty_sys_wf.
  - vm_compute. reflexivity.
Defined.

(** X6.  In every state reached from the empty world by spawns and
    passes, with any numbers of workers and any schedules, the frame draws
    as many points as the populations of the batches add up to, and each of
    them is a vertex written by [spawnParticle].  If every pass of the run
    had one worker at most, that number is [particleCounter]; with two
    workers or more the counter is decremented without synchronisation and
    need not be. *)
Theorem frame_draws_every_live_particle {T : Type} {ST : Scalar T}
    (bnd : Rect T) (gs : list (gField T)) (ops : list op) (s : sys T) :
  run_ops ops (empty_sys bnd gs) = Returned s →
  Z.of_nat (length (drawn s)) = total_population (particles (env s)) ∧
  Forall (λ v, color v = Yellow) (drawn s) ∧
  (Forall unraced ops → Z.of_nat (length (drawn s)) = particleCounter s).
Proof.
  intros Hrun.
  assert (Hbs : world_wf (env s)).
  { eapply run_ops_world_wf; [|exact Hrun]. constructor. }
  assert (Hlen : Z.of_nat (length (drawn s)) =
                 total_population (particles (env s))).
  { unfold drawn. apply length_drawn_batches.
    eapply list.Forall_impl; [exact Hbs|]. by intros b [? _]. }
  split; [done|]. split.
  - unfold drawn. apply Forall_join, Forall_fmap.
    eapply list.Forall_impl; [exact Hbs|]. by intros b [_ ?].
  - intros Hun. rewrite Hlen. symmetry.
    eapply (run_ops_wf ops (empty_sys bnd gs) s Hun); [|done].
    apply empty_sys_wf.
Qed.

Lemma frame_draws_every_live_particle_witness :
  let s := sequential_pass Binary32.two_particles in
  Z.of_nat (length (drawn s)) = total_population (particles (env s)) ∧
  Forall (λ v, color v = Yellow) (drawn s) ∧
  (Forall unraced
     [Spawn (Binary32.vec (-5) 300) (Binary32.vec 0 0);
      Spawn (Binary32.vec 100 300) (Binary32.vec 0 0);
      Pass 1 (round_robin 1 1) 0] →
   Z.of_nat (length (drawn s)) = particleCounter s).
Proof.
  cbv zeta.
  apply (frame_draws_every_live_particle Binary32.W_DIM [Binary32.main_field]
           [Spawn (Binary32.vec (-5) 300) (Binary32.vec 0 0);
            Spawn (Binary32.vec 100 300) (Binary32.vec 0 0);
            Pass 1 (round_robin 1 1) 0]).
  vm_compute. reflexivity.
Defined.

(** ** Runs of spawns *)

Section SpawnRuns.
Context {T : Type} {ST : Scalar T}.
Implicit Types (b : batch T) (bs : list (batch T)) (s : sys T).

Lemma spawn_populations_snoc (ps : list Z) (r : Z) :
  spawn_populations (ps ++ [r]) =
    if MAX_BATCH_VERTS <=? r then ps ++ [r; 1] else ps ++ [r + 1].
Proof.
  unfold spawn_populations.
  rewrite decide_False by (by destruct ps).
  rewrite length_app. simpl.
  replace (pred (length ps + 1)) with (length ps) by lia.
  rewrite list_lookup_total_middle by done.
  destruct (MAX_BATCH_VERTS <=? r).
  - rewrite <- app_assoc. simpl. rewrite length_app. simpl.
    replace (pred (length ps + 2)) with (length ps + 1)%nat by lia.
    by rewrite alter_app_r.
  - rewrite length_app. simpl.
    replace (pred (length ps + 1)) with (length ps + 0)%nat by lia.
    by rewrite alter_app_r.
Qed.

Lemma iter_spawn_populations n :
  ∃ q r : nat, S n = (q * K + r)%nat ∧ (1 <= r <= K)%nat ∧
    Nat.iter (S n) spawn_populations [] =
      replicate q MAX_BATCH_VERTS ++ [Z.of_nat r].
Proof.
  induction n as [|n (q & r & Hn & Hr & IH)].
  - exists 0%nat, 1%nat. unfold K, MAX_BATCH_VERTS. repeat split; lia.
  - change (Nat.iter (S (S n)) spawn_populations [])
      with (spawn_populations (Nat.iter (S n) spawn_populations [])).
    rewrite IH, spawn_populations_snoc.
    destruct (Z.leb_spec MAX_BATCH_VERTS (Z.of_nat r)) as [Hfull|Hroom].
    + assert (r = K) as -> by (unfold K in *; lia).
      exists (S q), 1%nat. split; [lia|]. split; [unfold K, MAX_BATCH_VERTS; lia|].
      rewrite replicate_S_end, <- app_assoc. simpl.
      by do 3 f_equal.
    + exists q, (S r). split; [lia|]. split; [unfold K in *; lia|].
      do 2 f_equal. lia.
Qed.

Lemma spawn_all_counter (pvs : list (Vector2 T * Vector2 T)) : ∀ bs c,
  snd (spawn_all pvs (bs, c)) = c + Z.of_nat (length pvs).
Proof.
  induction pvs as [|[pos vel] pvs IH]; intros bs c; [simpl; lia|].
  unfold spawn_all in *. cbn [foldl length fst snd].
  assert (Hc := spawnParticle_counter pos vel bs c).
  destruct (spawnParticle pos vel (bs, c)) as [bs1 c1]. cbn [snd] in Hc.
  rewrite IH. lia.
Qed.

(** What a click leaves, as long as it spawns no more than a batch holds:
    the invariant, the counter, the points drawn, and at most one batch
    more. *)
Lemma click_spec pos (vels : list (Vector2 T)) s :
  sys_wf s → (length vels <= K)%nat →
  sys_wf (click pos vels s) ∧
  particleCounter (click pos vels s) =
    particleCounter s + Z.of_nat (length vels) ∧
  drawn (click pos vels s) =
    drawn s ++ replicate (length vels) (mkVertex pos Yellow vzero) ∧
  (batch_count (click pos vels s) = batch_count s ∨
   batch_count (click pos vels s) = batch_count s + 1 ∧
   back_population (particles (env (click pos vels s)))
     <= Z.of_nat (length vels)).
Proof.
  intros Hwf. induction vels as [|vel vels IH] using rev_ind; intros Hlen.
  - cbn [click foldl length replicate]. rewrite app_nil_r.
    split; [done|]. split; [lia|]. split; [done|by left].
  - rewrite length_app in Hlen. cbn [length] in Hlen.
    destruct IH as (Hwf' & Hc & Hd & Hcount); [lia|].
    rewrite spawn_click_snoc, length_app. cbn [length].
    split; [by apply spawn_wf|]. split; [rewrite spawn_counter; lia|].
    split.
    { rewrite spawn_drawn, Hd by done.
      rewrite <- app_assoc. f_equal.
      replace (length vels + 1)%nat with (S (length vels)) by lia.
      by rewrite replicate_S_end. }
    set (s1 := click pos vels s) in *.
    unfold batch_count in *. rewrite !spawn_particles.
    destruct (spawnParticle_cases pos vel (particles (env s1))
                (particleCounter s1))
      as [(bs' & b & E & Hlt & ->)|[Hfull ->]]; cbn [fst].
    + rewrite E in Hcount. rewrite back_population_snoc in Hcount.
      rewrite back_population_snoc. rewrite !length_app in *.
      cbn [length] in *. cbn [write_slot population].
      destruct Hcount as [?|[? ?]]; [left; lia|right; lia].
    + rewrite back_population_snoc, length_app. cbn [length].
      cbn [write_slot population new_batch].
      destruct Hcount as [Heq|[Heq Hback]].
      * right. split; lia.
      * destruct Hfull as [Hnil|(bs' & b & E & Hge)].
        -- rewrite Hnil in Heq. simpl in Heq. lia.
        -- rewrite E, back_population_snoc in Hback.
           unfold K in Hlen. lia.
Qed.

Lemma spawn_preserves_frame pos vel s :
  bounds (env (spawn pos vel s)) = bounds (env s) ∧
  gravFields (env (spawn pos vel s)) = gravFields (env s).
Proof. unfold spawn. by destruct (spawnParticle _ _ _). Qed.

End SpawnRuns.

(** X7.  Spawns into a world with no batch fill the batches in order:
    after [n >= 1] spawns, with [n = q * 1000 + r] and [1 <= r <= 1000],
    there are [q] full batches and then one batch of [r] particles, and the
    counter is [n]. *)
Theorem spawns_fill_batches_in_order {T : Type} {ST : Scalar T}
    (pvs : list (Vector2 T * Vector2 T)) :
  pvs ≠ [] →
  ∃ q r : nat, length pvs = (q * K + r)%nat ∧ (1 <= r <= K)%nat ∧
    population <$> fst (spawn_all pvs ([], 0)) =
      replicate q MAX_BATCH_VERTS ++ [Z.of_nat r] ∧
    snd (spawn_all pvs ([], 0)) = Z.of_nat (length pvs).
Proof.
  intros Hne. destruct pvs as [|pv pvs]; [done|].
  destruct (iter_spawn_populations (length pvs)) as (q & r & Hn & Hr & Hit).
  exists q, r. split; [done|]. split; [done|]. split.
  - by rewrite spawn_all_populations.
  - rewrite spawn_all_counter. lia.
Qed.

Lemma spawns_fill_batches_in_order_witness :
  ∃ q r : nat,
    length (replicate 2500 (Binary32.vec 10 10, Binary32.vec 1 1))
      = (q * K + r)%nat ∧ (1 <= r <= K)%nat ∧
    population <$>
      fst (spawn_all (replicate 2500 (Binary32.vec 10 10, Binary32.vec 1 1))
                     ([], 0))
      = replicate q MAX_BATCH_VERTS ++ [Z.of_nat r] ∧
    snd (spawn_all (replicate 2500 (Binary32.vec 10 10, Binary32.vec 1 1))
                   ([], 0))
      = Z.of_nat
          (length (replicate 2500 (Binary32.vec 10 10, Binary32.vec 1 1))).
Proof. apply spawns_fill_batches_in_order. discriminate. Defined.

(** X8.  A click in a state that satisfies the invariant, with no more
    velocities than a batch holds (the program draws [PART_PER_CLICK] = 100
    of them): the invariant still holds, the counter goes up by the number
    of velocities, the frame draws that many more points, all at the mouse
    position and after the old ones, and at most one batch is appended. *)
Theorem click_adds_at_most_one_batch {T : Type} {ST : Scalar T}
    (pos : Vector2 T) (vels : list (Vector2 T)) (s : sys T) :
  sys_wf s → Z.of_nat (length vels) <= MAX_BATCH_VERTS →
  sys_wf (click pos vels s) ∧
  particleCounter (click pos vels s) =
    particleCounter s + Z.of_nat (length vels) ∧
  drawn (click pos vels s) =
    drawn s ++ replicate (length vels) (mkVertex pos Yellow vzero) ∧
  batch_count s <= batch_count (click pos vels s) <= batch_count s + 1.
Proof.
  intros Hwf Hlen.
  destruct (click_spec pos vels s Hwf) as (? & ? & ? & Hcount);
    [unfold K; lia|].
  do 3 (split; [done|]). destruct Hcount as [?|[? _]]; lia.
Qed.

Lemma click_adds_at_most_one_batch_witness :
  let vels := replicate (Z.to_nat PART_PER_CLICK) (Binary32.vec 30 0) in
  let s' := click (Binary32.vec 100 100) vels Binary32.initial in
  sys_wf s' ∧
  particleCounter s' =
    particleCounter Binary32.initial + Z.of_nat (length vels) ∧
  drawn s' =
    drawn Binary32.initial
      ++ replicate (length vels) (mkVertex (Binary32.vec 100 100) Yellow vzero) ∧
  batch_count Binary32.initial <= batch_count s'
    <= batch_count Binary32.initial + 1.
Proof.
  cbv zeta. apply click_adds_at_most_one_batch.
  - apply empty_sys_wf.
  - vm_compute. congruence.
Defined.

(** ** What a pass leaves alone *)

Section FrameFacts.
Context {T : Type} {ST : Scalar T}.
Implicit Types (b : batch T) (bs : list (batch T)) (s : sys T).

Lemma updated_oldPositions bnd gs b :
  oldPositions (updated bnd gs b) = oldPositions b.
Proof. unfold updated, update_batch. apply scan_oldPositions. Qed.

Lemma all_updated_frame s :
  bounds (env (all_updated s)) = bounds (env s) ∧
  gravFields (env (all_updated s)) = gravFields (env s) ∧
  batch_count (all_updated s) = batch_count s ∧
  particleCounter (all_updated s)
    - total_population (particles (env (all_updated s)))
    = particleCounter s - total_population (particles (env s)) ∧
  Forall2 (λ b b', oldPositions b' = oldPositions b)
          (particles (env s)) (particles (env (all_updated s))).
Proof.
  unfold all_updated, batch_count. cbn [env bounds gravFields particles
                                        particleCounter].
  rewrite length_map. repeat split; try lia.
  apply Forall2_fmap_r, Forall_Forall2_diag, list.Forall_forall.
  intros b _. apply updated_oldPositions.
Qed.

Lemma all_updated_populations s :
  world_wf (env s) →
  Forall2 (λ b b', 0 <= population b' <= population b)
          (particles (env s)) (particles (env (all_updated s))).
Proof.
  intros Hbs. unfold all_updated. cbn [env particles].
  apply Forall2_fmap_r, Forall_Forall2_diag.
  eapply list.Forall_impl; [exact Hbs|].
  intros b [Hwf _]. by apply updated_population_le.
Qed.

Lemma total_population_le bs bs' :
  Forall2 (λ b b', 0 <= population b' <= population b) bs bs' →
  total_population bs' <= total_population bs.
Proof.
  induction 1 as [|b b' bs bs' Hb Hbs IH]; [done|].
  unfold total_population in *. cbn [foldr]. lia.
Qed.

Lemma single_worker_counter thNum sched lost s s' :
  thNum <= 1 →
  updateSystem thNum sched lost s = Returned s' →
  particleCounter s' - total_population (particles (env s'))
    = particleCounter s - total_population (particles (env s)).
Proof.
  intros H1 Hret.
  destruct (returned_cases _ _ _ _ _ Hret) as [[_ ->]|[_ ->]]; [done|].
  rewrite raced_single by done. apply all_updated_frame.
Qed.

End FrameFacts.

(** X9.  Whatever the number of workers, the schedule and the outcome of
    the race on the counter, a call of [updateSystem] that returns has left
    the bounds, the force fields and the number of batches as they were and
    has not touched any [oldPositions] column.  With one worker at most it
    has taken from [particleCounter] exactly what it took from the
    populations. *)
Theorem pass_frame {T : Type} {ST : Scalar T}
    (thNum : Z) (sched : list nat) (lost : Z) (s s' : sys T) :
  updateSystem thNum sched lost s = Returned s' →
  bounds (env s') = bounds (env s) ∧
  gravFields (env s') = gravFields (env s) ∧
  batch_count s' = batch_count s ∧
  Forall2 (λ b b', oldPositions b' = oldPositions b)
          (particles (env s)) (particles (env s')) ∧
  (thNum <= 1 →
   particleCounter s' - total_population (particles (env s'))
     = particleCounter s - total_population (particles (env s))).
Proof.
  intros Hret. split; [|split; [|split; [|split]]].
  5: { intros H1. by eapply single_worker_counter. }
  all: destruct (returned_cases _ _ _ _ _ Hret) as [[_ ->]|[_ ->]];
    try done; unfold batch_count; rewrite ?env_raced;
    try apply all_updated_frame.
  apply Forall_Forall2_diag, list.Forall_forall. done.
Qed.

Lemma pass_frame_witness :
  let s' := sequential_pass Binary32.two_particles in
  bounds (env s') = bounds (env Binary32.two_particles) ∧
  gravFields (env s') = gravFields (env Binary32.two_particles) ∧
  batch_count s' = batch_count Binary32.two_particles ∧
  Forall2 (λ b b', oldPositions b' = oldPositions b)
          (particles (env Binary32.two_particles)) (particles (env s')) ∧
  (1 <= 1 →
   particleCounter s' - total_population (particles (env s'))
     = particleCounter Binary32.two_particles
       - total_population (particles (env Binary32.two_particles))).
Proof.
  cbv zeta.
  assert (Hret : updateSystem 1 (round_robin 1 1) 0 Binary32.two_particles =
                 Returned (sequential_pass Binary32.two_particles)).
  { rewrite (updateSystem_fair 1 Binary32.two_particles ltac:(lia)
               (round_robin 1 1) 0 (round_robin_fair 1 _)).
    by rewrite raced_single. }
  exact (pass_frame 1 (round_robin 1 1) 0 Binary32.two_particles
           (sequential_pass Binary32.two_particles) Hret).
Defined.

(** X10.  A pass creates no particle: in a world of well-formed batches
    whose live slots hold spawned particles, a call of [updateSystem] that
    returns leaves every batch with a population between 0 and the one it
    had, the total of the populations no larger than it was and the batches
    as well formed as before, whatever the number of workers, the schedule
    and the outcome of the race on the counter.  With one worker at most
    [particleCounter] is no larger than it was. *)
Theorem pass_never_adds_particles {T : Type} {ST : Scalar T}
    (thNum : Z) (sched : list nat) (lost : Z) (s s' : sys T) :
  world_wf (env s) →
  updateSystem thNum sched lost s = Returned s' →
  Forall2 (λ b b', 0 <= population b' <= population b)
          (particles (env s)) (particles (env s')) ∧
  total_population (particles (env s'))
    <= total_population (particles (env s)) ∧
  world_wf (env s') ∧
  (thNum <= 1 → particleCounter s' <= particleCounter s).
Proof.
  intros Hwf Hret.
  assert (Hwf' : world_wf (env s')) by (by eapply updateSystem_world_wf).
  assert (Hpops : Forall2 (λ b b', 0 <= population b' <= population b)
                    (particles (env s)) (particles (env s'))).
  { destruct (returned_cases _ _ _ _ _ Hret) as [[_ ->]|[_ ->]].
    - apply Forall_Forall2_diag.
      eapply list.Forall_impl; [exact Hwf|].
      intros b [(_ & _ & _ & _ & ?) _]. lia.
    - rewrite env_raced. by apply all_updated_populations. }
  assert (Hle := total_population_le _ _ Hpops).
  split; [done|]. split; [done|]. split; [done|].
  intros H1. assert (H := single_worker_counter _ _ _ _ _ H1 Hret). lia.
Qed.

Lemma pass_never_adds_particles_witness :
  let s' := raced 2 1 (sequential_pass Binary32.two_particles) in
  Forall2 (λ b b', 0 <= population b' <= population b)
          (particles (env Binary32.two_particles)) (particles (env s')) ∧
  total_population (particles (env s'))
    <= total_population (particles (env Binary32.two_particles)) ∧
  world_wf (env s') ∧
  (2 <= 1 → particleCounter s' <= particleCounter Binary32.two_particles).
Proof.
  cbv zeta.
  refine (pass_never_adds_particles 2 Binary32.two_workers 1
            Binary32.two_particles
            (raced 2 1 (sequential_pass Binary32.two_particles))
            _ (updateSystem_fair 2 Binary32.two_particles ltac:(lia)
                 Binary32.two_workers 1 (round_robin_fair 2 _))).
  apply (run_ops_world_wf
           [Spawn (Binary32.vec (-5) 300) (Binary32.vec 0 0);
            Spawn (Binary32.vec 100 300) (Binary32.vec 0 0)]
           Binary32.initial).
  - constructor.
  - vm_compute. reflexivity.
Defined.

(** X11.  The number of batches never goes down, and only a spawn can
    raise it: over any sequence of spawns and passes it grows by at most
    one for each spawn of the sequence, the passes adding nothing. *)
Theorem batch_count_never_shrinks {T : Type} {ST : Scalar T}
    (ops : list op) (s s' : sys T) :
  run_ops ops s = Returned s' →
  batch_count s <= batch_count s' <= batch_count s + spawn_count ops.
Proof.
  revert s. induction ops as [|o ops IH]; intros s Hrun; cbn [run_ops] in Hrun.
  - injection Hrun as <-. simpl. lia.
  - destruct o as [pos vel|thNum sched lost]; cbn [apply_op] in Hrun.
    + apply IH in Hrun. assert (H := spawn_batch_count pos vel s).
      cbn [spawn_count]. lia.
    + destruct (updateSystem thNum sched lost s) as [s1| |] eqn:E; try done.
      apply IH in Hrun.
      assert (Hsame : batch_count s1 = batch_count s).
      { destruct (returned_cases _ _ _ _ _ E) as [[_ ->]|[_ ->]]; [done|].
        unfold batch_count. rewrite env_raced. apply all_updated_frame. }
      cbn [spawn_count]. lia.
Qed.

Lemma batch_count_never_shrinks_witness :
  batch_count Binary32.initial
    <= batch_count (raced 2 1 (sequential_pass Binary32.two_particles))
    <= batch_count Binary32.initial + 2.
Proof.
  apply (batch_count_never_shrinks
           [Spawn (Binary32.vec (-5) 300) (Binary32.vec 0 0);
            Spawn (Binary32.vec 100 300) (Binary32.vec 0 0);
            Pass 2 Binary32.two_workers 1]
           Binary32.initial
           (raced 2 1 (sequential_pass Binary32.two_particles))).
  vm_compute. reflexivity.
Defined.

(** ** The shares of the workers *)

(** X12.  The last worker takes what the division leaves: with
    [thNum >= 1] workers and [M] batches its range ends at [M] and holds
    [M / thNum + M mod thNum] batches, while every other worker has
    [M / thNum]. *)
Theorem last_worker_takes_the_remainder (thNum M : Z) :
  1 <= thNum → 0 <= M →
  ∃ a, partition thNum M (thNum - 1) = Some (a, M) ∧
    M - a = M / thNum + M mod thNum ∧
    ∀ id, 0 <= id < thNum - 1 →
      ∃ a' b', partition thNum M id = Some (a', b') ∧ b' - a' = M / thNum.
Proof.
  intros HT HM. exists (M / thNum * (thNum - 1)).
  rewrite partition_nonzero, Z.eqb_refl by lia. split; [done|]. split.
  - assert (H := Z.div_mod M thNum ltac:(lia)). lia.
  - intros id Hid. rewrite partition_nonzero by lia.
    destruct (Z.eqb_spec id (thNum - 1)); [lia|].
    eexists _, _. split; [done|]. lia.
Qed.

Lemma last_worker_takes_the_remainder_witness :
  ∃ a, partition 4 7 (4 - 1) = Some (a, 7) ∧
    7 - a = 7 / 4 + 7 mod 4 ∧
    ∀ id, 0 <= id < 4 - 1 →
      ∃ a' b', partition 4 7 id = Some (a', b') ∧ b' - a' = 7 / 4.
Proof. apply last_worker_takes_the_remainder; lia. Defined.

(** X13.  With fewer batches than workers the division gives 0: every
    worker but the last has the empty range [0, 0) and the last worker has
    all the batches. *)
Theorem fewer_batches_than_workers (thNum M : Z) :
  0 <= M < thNum →
  partition thNum M (thNum - 1) = Some (0, M) ∧
  ∀ id, 0 <= id < thNum - 1 → partition thNum M id = Some (0, 0).
Proof.
  intros HM. assert (Hq : M / thNum = 0) by (apply Z.div_small; lia).
  split.
  - rewrite partition_nonzero, Z.eqb_refl, Hq by lia. done.
  - intros id Hid. rewrite partition_nonzero, Hq by lia.
    by destruct (Z.eqb_spec id (thNum - 1)); [lia|].
Qed.

Lemma fewer_batches_than_workers_witness :
  partition 8 3 (8 - 1) = Some (0, 3) ∧
  ∀ id, 0 <= id < 8 - 1 → partition 8 3 id = Some (0, 0).
Proof. apply fewer_batches_than_workers. lia. Defined.

(** ** The barrier *)

Section BarrierFacts.
Context {T : Type} {ST : Scalar T}.
Implicit Types (p : pool T) (s : sys T).

Lemma pool_step_other thNum p p' id id' :
  pool_step thNum p id = Some p' → id' ≠ id →
  workers p' !! id' = workers p !! id'.
Proof.
  unfold pool_step. intros Hstep Hne.
  destruct (workers p !! id) as [w|]; [|by injection Hstep as <-].
  destruct (worker_step _ _ _ _ _) as [[[w' s'] n']|]; [|done].
  injection Hstep as <-. cbn [workers].
  by rewrite list_lookup_insert_ne by done.
Qed.

Lemma run_pool_unscheduled thNum sched : ∀ p p' id,
  run_pool thNum sched p = Some p' → id ∉ sched →
  workers p' !! id = workers p !! id.
Proof.
  induction sched as [|id0 sched IH]; intros p p' id Hrun Hid;
    cbn [run_pool] in Hrun.
  - by injection Hrun as <-.
  - apply not_elem_of_cons in Hid as [Hne Hid].
    destruct (pool_step thNum p id0) as [p1|] eqn:E; [|done].
    rewrite (IH p1 p' id Hrun Hid). by eapply pool_step_other.
Qed.

End BarrierFacts.

(** X14.  [updateSystem] does not return before every worker has run: if
    the schedule gives no slot to one of the [thNum] workers, the caller is
    still waiting at the end of it. *)
Theorem barrier_waits_for_every_worker {T : Type} {ST : Scalar T}
    (thNum : Z) (sched : list nat) (lost : Z) (s : sys T) (id : nat) :
  Z.of_nat id < thNum → id ∉ sched →
  updateSystem thNum sched lost s = Waiting.
Proof.
  intros Hid Hsched.
  assert (HT : 1 <= thNum) by lia.
  assert (Hdef := updateSystem_defined thNum s HT sched lost).
  unfold updateSystem in *.
  destruct (run_pool_spec thNum s HT sched _ (initial_pool_inv thNum s))
    as (p & Hrun & Hinv & _).
  rewrite Hrun in *.
  destruct (Z.eqb_spec (threadSignals p) thNum) as [Hopen|]; [|done].
  exfalso.
  assert (Hw : workers p !! id = Some Spawned).
  { rewrite (run_pool_unscheduled thNum sched _ p id Hrun Hsched).
    cbn [workers]. apply lookup_replicate_2. lia. }
  by assert (Spawned = Signalled)
    by (eapply barrier_all_signalled; [exact HT|exact Hinv|exact Hopen|exact Hw]).
Qed.

Lemma barrier_waits_for_every_worker_witness :
  updateSystem 2 [0; 0; 0; 0]%nat 0 Binary32.two_particles = Waiting.
Proof.
  apply (barrier_waits_for_every_worker 2 [0; 0; 0; 0]%nat 0
           Binary32.two_particles 1); [lia|].
  intros H. repeat (apply elem_of_cons in H as [H|H]; [discriminate|]).
  by apply elem_of_nil in H.
Defined.

(** ** The workers one after the other *)

Section TurnFacts.
Context {T : Type} {ST : Scalar T}.
Implicit Types (s : sys T).

Lemma loop_j_app a : ∀ b j s,
  loop_j (a + b) j s = loop_j b (j + Z.of_nat a) (loop_j a j s).
Proof.
  induction a as [|a IH]; intros b j s.
  - simpl. by rewrite Z.add_0_r.
  - cbn [Nat.add loop_j]. rewrite IH. f_equal. lia.
Qed.

Lemma update_at_batch_count j s : batch_count (update_at j s) = batch_count s.
Proof.
  unfold update_at, batch_count.
  destruct (particles (env s) !! idx j) as [b|]; [|done].
  destruct (update_batch _ _ _) as [b' c']. cbn [env particles].
  by rewrite length_insert.
Qed.

Lemma loop_j_batch_count n : ∀ j s,
  batch_count (loop_j n j s) = batch_count s.
Proof.
  induction n as [|n IH]; intros j s; [done|]. cbn [loop_j].
  by rewrite IH, update_at_batch_count.
Qed.

Lemma update_in_turn_spec thNum n : ∀ id s c,
  0 <= id → id + Z.of_nat (S n) <= thNum →
  update_in_turn thNum (S n) id (s, c) =
    Returned
      (loop_j (Z.to_nat
                 ((if id + Z.of_nat (S n) =? thNum then batch_count s
                   else batch_count s / thNum * (id + Z.of_nat (S n)))
                  - batch_count s / thNum * id))
              (batch_count s / thNum * id) s,
       c + Z.of_nat (S n)).
Proof.
  induction n as [|n IH]; intros id s c Hid Hle.
  - cbn [update_in_turn]. unfold update. cbn [fst snd].
    rewrite partition_nonzero by lia.
    replace (id + Z.of_nat 1 =? thNum) with (id =? thNum - 1)
      by (destruct (Z.eqb_spec id (thNum - 1)),
                   (Z.eqb_spec (id + Z.of_nat 1) thNum); lia).
    replace (id + Z.of_nat 1) with (id + 1) by lia. done.
  - assert (Hq : 0 <= batch_count s / thNum)
      by (apply Z.div_pos; unfold batch_count; lia).
    assert (Hm : thNum * (batch_count s / thNum) <= batch_count s)
      by (apply Z.mul_div_le; lia).
    remember (S n) as m eqn:Hm'.
    cbn [update_in_turn]. unfold update at 1. cbn [fst snd].
    rewrite partition_nonzero by lia.
    destruct (Z.eqb_spec id (thNum - 1)) as [|_]; [lia|].
    cbv beta iota.
    rewrite IH by lia. rewrite loop_j_batch_count.
    replace (id + 1 + Z.of_nat m) with (id + Z.of_nat (S m)) by lia.
    set (E := if id + Z.of_nat (S m) =? thNum then _ else _).
    assert (HE : batch_count s / thNum * (id + 1) <= E).
    { unfold E. destruct (Z.eqb_spec (id + Z.of_nat (S m)) thNum); nia. }
    f_equal. f_equal; [|lia].
    replace (Z.to_nat (E - batch_count s / thNum * id))
      with (Z.to_nat (batch_count s / thNum * (id + 1)
                      - batch_count s / thNum * id)
            + Z.to_nat (E - batch_count s / thNum * (id + 1)))%nat by lia.
    rewrite loop_j_app. f_equal. lia.
Qed.

End TurnFacts.

(** X15.  The bodies of the workers run one after the other, [update(env,
    0)] to [update(env, thNum - 1)] with [thNum >= 1], are the single pass
    over all the batches in index order, and leave [threadSignals] at
    [thNum]. *)
Theorem workers_in_turn_are_the_sequential_pass {T : Type} {ST : Scalar T}
    (thNum : Z) (s : sys T) :
  1 <= thNum →
  update_in_turn thNum (Z.to_nat thNum) 0 (s, 0) =
    Returned (sequential_pass s, thNum).
Proof.
  intros HT.
  replace (Z.to_nat thNum) with (S (Z.to_nat (thNum - 1))) by lia.
  rewrite update_in_turn_spec by lia.
  replace (0 + Z.of_nat (S (Z.to_nat (thNum - 1))) =? thNum) with true
    by (symmetry; apply Z.eqb_eq; lia).
  rewrite Z.mul_0_r, Z.sub_0_r. unfold sequential_pass, batch_count.
  rewrite Nat2Z.id. f_equal. f_equal. lia.
Qed.

Lemma workers_in_turn_are_the_sequential_pass_witness :
  update_in_turn 3 (Z.to_nat 3) 0 (Binary32.two_particles, 0) =
    Returned (sequential_pass Binary32.two_particles, 3).
Proof. apply workers_in_turn_are_the_sequential_pass. lia. Defined.

(** ** Several frames *)

Section FramesFacts.
Context {St : Type} (pass : St → St) (dt : Z) (Hdt : 0 < dt).

Lemma frames_spec fuel elapsed : ∀ acc s,
  0 <= acc < dt → Forall (λ e, 0 <= e) elapsed →
  (Z.to_nat ((acc + foldr Z.add 0%Z elapsed) / dt) < fuel)%nat →
  frames pass dt fuel elapsed (acc, s) =
    Some ((acc + foldr Z.add 0 elapsed) mod dt,
          Nat.iter (Z.to_nat ((acc + foldr Z.add 0 elapsed) / dt)) pass s).
Proof.
  induction elapsed as [|e es IH]; intros acc s Hacc Hes Hfuel.
  - cbn [frames foldr]. rewrite Z.add_0_r.
    by rewrite Z.div_small, Z.mod_small by lia.
  - rewrite list.Forall_cons in Hes. destruct Hes as [He Hes].
    cbn [frames foldr] in *.
    assert (Hsum : 0 <= foldr Z.add 0 es).
    { clear -Hes. induction Hes; simpl; lia. }
    set (total := acc + (e + foldr Z.add 0 es)) in *.
    assert (Hdm := Z.div_mod (acc + e) dt ltac:(lia)).
    assert (Hr := Z.mod_pos_bound (acc + e) dt Hdt).
    assert (Hq : 0 <= (acc + e) / dt) by (apply Z.div_pos; lia).
    assert (Htot : total = ((acc + e) mod dt + foldr Z.add 0 es)
                           + (acc + e) / dt * dt) by lia.
    assert (Hq' : 0 <= ((acc + e) mod dt + foldr Z.add 0 es) / dt)
      by (apply Z.div_pos; lia).
    assert (Hdiv : total / dt =
                   ((acc + e) mod dt + foldr Z.add 0 es) / dt + (acc + e) / dt)
      by (rewrite Htot, Z.div_add by lia; done).
    assert (Hmod : total mod dt = ((acc + e) mod dt + foldr Z.add 0 es) mod dt)
      by (rewrite Htot, Z.mod_add by lia; done).
    unfold frame. cbn [fst snd].
    rewrite tick_loop_spec by lia.
    rewrite IH by (done || lia).
    rewrite Hdiv, Hmod, <- Nat.iter_add. do 3 f_equal. lia.
Qed.

End FramesFacts.

(** X16.  The passes run over several frames depend on the total time
    only: from an accumulator below [dt] and with elapsed times that are
    not negative, the frames run [total / dt] passes in all and leave
    [total mod dt] in the accumulator, where [total] is the accumulator plus
    the sum of the elapsed times, however the time is cut into frames. *)
Theorem frames_depend_on_total_time {St : Type} (pass : St → St) (dt : Z)
    (fuel : nat) (elapsed : list Z) (acc : Z) (s : St) :
  0 < dt → 0 <= acc < dt → Forall (λ e, 0 <= e) elapsed →
  (Z.to_nat ((acc + foldr Z.add 0%Z elapsed) / dt) < fuel)%nat →
  frames pass dt fuel elapsed (acc, s) =
    Some ((acc + foldr Z.add 0 elapsed) mod dt,
          Nat.iter (Z.to_nat ((acc + foldr Z.add 0 elapsed) / dt)) pass s).
Proof. intros. by apply frames_spec. Qed.

Lemma frames_depend_on_total_time_witness :
  frames (λ n : nat, S n) Binary32.dt 10 [10000; 30000; 5] (0, 0%nat) =
    Some ((0 + foldr Z.add 0 [10000; 30000; 5]) mod Binary32.dt,
          Nat.iter (Z.to_nat ((0 + foldr Z.add 0 [10000; 30000; 5])
                              / Binary32.dt))
                   (λ n : nat, S n) 0%nat).
Proof.
  apply frames_depend_on_total_time.
  - vm_compute. reflexivity.
  - vm_compute. split; congruence.
  - repeat constructor; vm_compute; congruence.
  - vm_compute. lia.
Defined.

(** ** Positions that are not numbers *)

Lemma SFleb_nan_r (x : spec_float) : SFleb x S754_nan = false.
Proof. by destruct x. Qed.

Lemma SFltb_nan_l (x : spec_float) : SFltb S754_nan x = false.
Proof. by destruct x. Qed.

Lemma is_nan_eq (x : Binary32.float) : Binary32.is_nan x = true → x = S754_nan.
Proof. by destruct x. Qed.

Lemma nan_not_contained (r : Rect Binary32.float) (p : Vector2 Binary32.float) :
  Binary32.is_nan (vx p) = true ∨ Binary32.is_nan (vy p) = true →
  contains r p = false.
Proof.
  unfold contains. cbn [leb ltb Binary32.scalar].
  intros [H|H]; apply is_nan_eq in H; rewrite H.
  - by rewrite SFleb_nan_r.
  - by rewrite SFleb_nan_r, SFltb_nan_l, !andb_false_r.
Qed.

(** X17.  On binary32 (and with [sf::Rect::contains] as SFML 2 has it) a
    particle whose position has a NaN coordinate is never in bounds: the
    pass that meets it takes the [else] branch and removes it. *)
Theorem nan_position_is_removed
    (bnd : Rect Binary32.float) (gs : list (gField Binary32.float))
    (i : Z) (b : batch Binary32.float) (c : Z) :
  Binary32.is_nan (vx (position (vertices b !!! idx i))) = true ∨
  Binary32.is_nan (vy (position (vertices b !!! idx i))) = true →
  update_particle bnd gs i (b, c) = remove i (b, c).
Proof.
  intros Hnan. unfold update_particle. cbn [fst snd].
  by rewrite nan_not_contained.
Qed.

Lemma nan_position_is_removed_witness :
  let b := Binary32.first_batch
             (sequential_pass (sequential_pass Binary32.at_origin)) in
  update_particle Binary32.W_DIM [Binary32.main_field] 0 (b, 1)
    = remove 0 (b, 1).
Proof.
  cbv zeta. apply nan_position_is_removed. left. vm_compute. reflexivity.
Defined.

(** ** The bounds of [main] *)

Lemma default_rect_empty (p : Vector2 Binary32.float) :
  contains default_rect p = false.
Proof.
  assert (E : add (zero (Scalar := Binary32.scalar)) zero = S754_zero false)
    by (vm_compute; reflexivity).
  unfold contains, default_rect, smin, smax. cbn [left top width height].
  rewrite E.
  change (ltb (zero (Scalar := Binary32.scalar)) (S754_zero false))
    with false.
  change (ltb (S754_zero false) (zero (Scalar := Binary32.scalar)))
    with false.
  cbv iota. destruct p as [x y]. cbn [vx vy].
  by destruct x as [[]|[]| |[] m e].
Qed.

Lemma filter_none {A} (P : A → Prop) `{!∀ x, Decision (P x)} (l : list A) :
  Forall (λ x, ¬ P x) l → filter P l = [].
Proof.
  induction 1 as [|x l Hx Hl IH]; [done|]. by rewrite filter_cons_False.
Qed.

Lemma spawn_bounds {T : Type} {ST : Scalar T} pos vel (s : sys T) :
  bounds (env (spawn pos vel s)) = bounds (env s).
Proof. unfold spawn. by destruct (spawnParticle _ _ _). Qed.

Lemma run_ops_bounds {T : Type} {ST : Scalar T} (ops : list op) :
  ∀ s s' : sys T,
  run_ops ops s = Returned s' → bounds (env s') = bounds (env s).
Proof.
  induction ops as [|o ops IH]; intros s s' Hrun; cbn [run_ops] in Hrun.
  - by injection Hrun as <-.
  - destruct o as [pos vel|thNum sched lost]; cbn [apply_op] in Hrun.
    + rewrite (IH _ _ Hrun). apply spawn_bounds.
    + destruct (updateSystem thNum sched lost s) as [s1| |] eqn:E; try done.
      rewrite (IH _ _ Hrun).
      destruct (returned_cases _ _ _ _ _ E) as [[_ ->]|[_ ->]]; [done|].
      by rewrite env_raced.
Qed.

Lemma drawn_nothing {T : Type} {ST : Scalar T} (bs : list (batch T)) :
  Forall (λ b, population b = 0) bs → mjoin (live_vertices <$> bs) = [].
Proof.
  induction 1 as [|b bs Hb Hbs IH]; [done|].
  cbn [fmap list_fmap mjoin list_join]. unfold live_vertices at 1.
  rewrite Hb. by rewrite take_0.
Qed.

(** X18.  [main] never assigns [env.bounds], which keep the value of
    [sf::FloatRect()]: left, top, width and height all 0.  On binary32 such
    a rectangle contains no point.  So in every state [main] reaches - by
    spawns and passes from its initial state - a pass that is run removes
    every particle: it leaves every batch with population 0 and the frame
    has nothing to draw. *)
Theorem main_bounds_hold_no_point
    (ops : list op) (thNum : Z) (sched : list nat) (lost : Z)
    (s s' : sys Binary32.float) :
  run_ops ops Binary32.main_initial = Returned s →
  thNum ≠ 0 →
  updateSystem thNum sched lost s = Returned s' →
  (∀ p, contains (bounds (env s)) p = false) ∧
  Forall (λ b, population b = 0) (particles (env s')) ∧
  drawn s' = [].
Proof.
  intros Hrun HT Hret.
  assert (Hb : bounds (env s) = default_rect)
    by (by rewrite (run_ops_bounds _ _ _ Hrun)).
  assert (Hwf : world_wf (env s)).
  { eapply run_ops_world_wf; [|exact Hrun]. constructor. }
  assert (Hall : Forall (λ b, population b = 0) (particles (env s'))).
  { destruct (pass_particles _ _ _ _ _ HT Hret) as (_ & _ & ->).
    apply Forall_fmap. eapply list.Forall_impl; [exact Hwf|].
    intros b [Hbwf _]. cbn.
    destruct (updated_survivors (bounds (env s)) (gravFields (env s)) b Hbwf)
      as (-> & _).
    rewrite Hb.
    replace (filter (λ r, in_bounds default_rect r = true) (live_rows b))
      with (@nil (row (T := Binary32.float))); [done|].
    symmetry. apply filter_none, list.Forall_forall. intros r _.
    unfold in_bounds. by rewrite default_rect_empty. }
  split; [|split; [done|]].
  - intros p. rewrite Hb. apply default_rect_empty.
  - unfold drawn. by apply drawn_nothing.
Qed.

Lemma main_bounds_hold_no_point_witness :
  let s := spawn (Binary32.vec 400 300) (Binary32.vec 0 0)
                 Binary32.main_initial in
  let s' := raced 2 0 (sequential_pass s) in
  (∀ p, contains (bounds (env s)) p = false) ∧
  Forall (λ b, population b = 0) (particles (env s')) ∧
  drawn s' = [].
Proof.
  cbv zeta.
  refine (main_bounds_hold_no_point
            [Spawn (Binary32.vec 400 300) (Binary32.vec 0 0)]
            2 Binary32.two_workers 0
            (spawn (Binary32.vec 400 300) (Binary32.vec 0 0)
                   Binary32.main_initial)
            (raced 2 0 (sequential_pass
               (spawn (Binary32.vec 400 300) (Binary32.vec 0 0)
                      Binary32.main_initial)))
            eq_refl _ _).
  - lia.
  - apply (updateSystem_fair 2 _ ltac:(lia) Binary32.two_workers 0).
    apply round_robin_fair.
Defined.
